(** * SyncPoint: a shallow embedding of [utils::SyncPoint::Impl]

    The coordinator of [sync_point.cc] is one object whose fields are all
    guarded by [mutex_] (only [enabled_] is an atomic read outside it).  Every
    member function is embedded as a function on the record [Impl]; a member
    function that can park in [cv_.wait] or leave the lock to run a callback
    is cut at those places into the pieces that run while the mutex is held.
    A labelled step relation then interleaves those pieces over a pool of
    threads. *)

From stdpp Require Import gmap strings list fin_maps relations.
From stdpp Require Import pretty.

Open Scope Z_scope.

(** ** Data model *)

(** [std::this_thread::get_id()] *)
Definition thread_id := nat.

(** A registered [std::function<void(const std::vector<void*>&)>]; the
    coordinator only stores, looks up and calls it, so it is a handle. *)
Definition Callback := nat.

(** [std::vector<void*>]: opaque addresses. *)
Definition cb_args := list Z.

Record SyncPointPair := mkPair { predecessor : string; successor : string }.

#[global] Instance SyncPointPair_eq_dec : EqDecision SyncPointPair.
Proof. solve_decision. Defined.

Record Impl := mkImpl {
  enabled_ : bool;
  (* [int]; signed overflow is undefined in C++, the model counts in Z *)
  num_callbacks_running_ : Z;
  successors_ : gmap string (list string);
  predecessors_ : gmap string (list string);
  callbacks_ : gmap string Callback;
  markers_ : gmap string (list string);
  marked_thread_id_ : gmap string thread_id;
  cleared_points_ : gset string;
}.

(** The state of a freshly constructed [Impl] (member initialisers). *)
Definition Impl_new : Impl :=
  mkImpl false 0 ∅ ∅ ∅ ∅ ∅ ∅.

(** Field updates. *)
Definition set_enabled (b : bool) (s : Impl) : Impl :=
  mkImpl b (num_callbacks_running_ s) (successors_ s) (predecessors_ s)
         (callbacks_ s) (markers_ s) (marked_thread_id_ s) (cleared_points_ s).
Definition set_num_callbacks_running (n : Z) (s : Impl) : Impl :=
  mkImpl (enabled_ s) n (successors_ s) (predecessors_ s)
         (callbacks_ s) (markers_ s) (marked_thread_id_ s) (cleared_points_ s).
Definition set_successors (m : gmap string (list string)) (s : Impl) : Impl :=
  mkImpl (enabled_ s) (num_callbacks_running_ s) m (predecessors_ s)
         (callbacks_ s) (markers_ s) (marked_thread_id_ s) (cleared_points_ s).
Definition set_predecessors (m : gmap string (list string)) (s : Impl) : Impl :=
  mkImpl (enabled_ s) (num_callbacks_running_ s) (successors_ s) m
         (callbacks_ s) (markers_ s) (marked_thread_id_ s) (cleared_points_ s).
Definition set_callbacks (m : gmap string Callback) (s : Impl) : Impl :=
  mkImpl (enabled_ s) (num_callbacks_running_ s) (successors_ s) (predecessors_ s)
         m (markers_ s) (marked_thread_id_ s) (cleared_points_ s).
Definition set_markers (m : gmap string (list string)) (s : Impl) : Impl :=
  mkImpl (enabled_ s) (num_callbacks_running_ s) (successors_ s) (predecessors_ s)
         (callbacks_ s) m (marked_thread_id_ s) (cleared_points_ s).
Definition set_marked_thread_id (m : gmap string thread_id) (s : Impl) : Impl :=
  mkImpl (enabled_ s) (num_callbacks_running_ s) (successors_ s) (predecessors_ s)
         (callbacks_ s) (markers_ s) m (cleared_points_ s).
Definition set_cleared_points (c : gset string) (s : Impl) : Impl :=
  mkImpl (enabled_ s) (num_callbacks_running_ s) (successors_ s) (predecessors_ s)
         (callbacks_ s) (markers_ s) (marked_thread_id_ s) c.

(** ** Container operations of the C++ library, as the code uses them *)

(** [m[k]] read as a value: the stored vector, or the empty one that
    [operator[]] default-constructs. *)
Definition at_or_empty (k : string) (m : gmap string (list string)) : list string :=
  default [] (m !! k).

(** [m[k].push_back(v)] *)
Definition push_back (k v : string) (m : gmap string (list string))
  : gmap string (list string) :=
  <[k := at_or_empty k m ++ [v]]> m.

(** [m[k]] used only for reading still creates the entry when it is absent. *)
Definition touch (k : string) (m : gmap string (list string))
  : gmap string (list string) :=
  match m !! k with
  | Some _ => m
  | None => <[k := []]> m
  end.

(** [m.emplace(k, t)]: inserts only when [k] has no entry yet. *)
Definition emplace (k : string) (t : thread_id) (m : gmap string thread_id)
  : gmap string thread_id :=
  match m !! k with
  | Some _ => m
  | None => <[k := t]> m
  end.

(** ** Member functions that never suspend *)

Definition EnableProcessing (s : Impl) : Impl := set_enabled true s.

Definition DisableProcessing (s : Impl) : Impl := set_enabled false s.

(** Body of the first loop of [LoadDependencyAndMarkers]. *)
Definition load_dependency (s : Impl) (dependency : SyncPointPair) : Impl :=
  let s1 := set_successors
              (push_back (predecessor dependency) (successor dependency) (successors_ s)) s in
  set_predecessors
    (push_back (successor dependency) (predecessor dependency) (predecessors_ s1)) s1.

(** Body of the second loop. *)
Definition load_marker (s : Impl) (marker : SyncPointPair) : Impl :=
  let s1 := set_successors
              (push_back (predecessor marker) (successor marker) (successors_ s)) s in
  let s2 := set_predecessors
              (push_back (successor marker) (predecessor marker) (predecessors_ s1)) s1 in
  set_markers (push_back (predecessor marker) (successor marker) (markers_ s2)) s2.

(** The five [clear()] calls at the head of [LoadDependencyAndMarkers]. *)
Definition clear_graph (s : Impl) : Impl :=
  set_marked_thread_id ∅
    (set_markers ∅
      (set_cleared_points ∅
        (set_predecessors ∅
          (set_successors ∅ s)))).

(** The whole body runs under one [std::lock_guard].  It ends with
    [cv_.notify_all()]: in the step relation below a parked thread may test
    again at any time, so after a reload in particular. *)
Definition LoadDependencyAndMarkers
    (dependencies markers : list SyncPointPair) (s : Impl) : Impl :=
  foldl load_marker (foldl load_dependency (clear_graph s) dependencies) markers.

Definition SetCallBack (point : string) (callback : Callback) (s : Impl) : Impl :=
  set_callbacks (<[point := callback]> (callbacks_ s)) s.

Definition ClearTrace (s : Impl) : Impl := set_cleared_points ∅ s.

(** ** Pieces of the member functions that can suspend *)

(** How a piece that runs under the mutex ends. *)
Inductive Outcome :=
| Returned                 (* the member function returns to its caller *)
| Blocked                  (* parked in [cv_.wait(lock)], mutex released *)
| Calling (cb : Callback). (* mutex released, [callback_pair->second(cb_args)] runs *)

#[global] Instance Outcome_eq_dec : EqDecision Outcome.
Proof. solve_decision. Defined.

Record Result := mkResult {
  state : Impl;
  outcome : Outcome;
  notify_all : bool;   (* whether the piece executed [cv_.notify_all()] *)
}.

(** [ClearCallBack]: the loop test and what follows it; the same piece runs
    again each time the thread comes back from [cv_.wait]. *)
Definition ClearCallBack (point : string) (s : Impl) : Result :=
  if bool_decide (num_callbacks_running_ s > 0)
  then mkResult s Blocked false
  else mkResult (set_callbacks (delete point (callbacks_ s)) s) Returned false.

Definition ClearAllCallBacks (s : Impl) : Result :=
  if bool_decide (num_callbacks_running_ s > 0)
  then mkResult s Blocked false
  else mkResult (set_callbacks ∅ s) Returned false.

Definition DisabledByMarker (point : string) (tid : thread_id) (s : Impl) : bool :=
  match marked_thread_id_ s !! point with
  | Some marked => bool_decide (tid ≠ marked)
  | None => false
  end.

(** The loop of [PredecessorsAllCleared] over an already fetched vector. *)
Fixpoint all_cleared (cleared : gset string) (preds : list string) : bool :=
  match preds with
  | [] => true
  | pred :: rest =>
      if bool_decide (pred ∈ cleared) then all_cleared cleared rest else false
  end.

(** [predecessors_[point]] creates an empty entry for a point that has none. *)
Definition PredecessorsAllCleared (point : string) (s : Impl) : bool * Impl :=
  (all_cleared (cleared_points_ s) (at_or_empty point (predecessors_ s)),
   set_predecessors (touch point (predecessors_ s)) s).

(** Lines 88-93: the marking loop. *)
Definition mark_successors (point : string) (tid : thread_id) (s : Impl) : Impl :=
  match markers_ s !! point with
  | Some marked_points =>
      set_marked_thread_id
        (foldl (fun m marked_point => emplace marked_point tid m)
               (marked_thread_id_ s) marked_points) s
  | None => s
  end.

(** Lines 106-109 and, without a callback, 114-115. *)
Definition Process_fire (point : string) (s : Impl) : Result :=
  match callbacks_ s !! point with
  | Some cb =>
      mkResult (set_num_callbacks_running (num_callbacks_running_ s + 1) s)
               (Calling cb) false
  | None =>
      mkResult (set_cleared_points ({[point]} ∪ cleared_points_ s) s) Returned true
  end.

(** Line 99: the loop test; on success the code after the loop. *)
Definition Process_loop (point : string) (s : Impl) : Result :=
  let '(ok, s1) := PredecessorsAllCleared point s in
  if ok then Process_fire point s1 else mkResult s1 Blocked false.

(** Lines 86-99: from taking the lock to the first suspension or return. *)
Definition Process_locked (point : string) (tid : thread_id) (s : Impl) : Result :=
  let s1 := mark_successors point tid s in
  if DisabledByMarker point tid s1 then mkResult s1 Returned false
  else Process_loop point s1.

(** Lines 101-104 and back to the loop test: the thread returns from
    [cv_.wait] holding the mutex again. *)
Definition Process_wake (point : string) (tid : thread_id) (s : Impl) : Result :=
  if DisabledByMarker point tid s then mkResult s Returned false
  else Process_loop point s.

(** Lines 111-115: the callback has returned. *)
Definition Process_resume (point : string) (s : Impl) : Result :=
  let s1 := set_num_callbacks_running (num_callbacks_running_ s - 1) s in
  mkResult (set_cleared_points ({[point]} ∪ cleared_points_ s1) s1) Returned true.

(** [Process] from its entry to its first suspension or return.  The
    arguments are only handed to the callback. *)
Definition Process (point : string) (args : cb_args) (tid : thread_id) (s : Impl)
  : Result :=
  if negb (enabled_ s) then mkResult s Returned false
  else Process_locked point tid s.

(** ** Threads and interleavings

    A thread is described by the calls of the coordinator it is inside of,
    innermost first: a callback runs with the mutex released and may call the
    coordinator again, so calls nest. *)
Inductive Frame :=
| InProcess_lock (point : string) (args : cb_args)
    (* [enabled_] was read as true; next is the lock of line 86 *)
| InProcess_wait (point : string) (args : cb_args)
    (* parked in the [cv_.wait] of line 100 *)
| InProcess_callback (point : string) (cb : Callback) (args : cb_args)
    (* inside the callback called at line 110 *)
| InClearCallBack_wait (point : string)
    (* parked in the [cv_.wait] of line 64 *)
| InClearAllCallBacks_wait.
    (* parked in the [cv_.wait] of line 72 *)

#[global] Instance Frame_eq_dec : EqDecision Frame.
Proof. solve_decision. Defined.

Record System := mkSystem {
  impl : Impl;
  threads : gmap thread_id (list Frame);
}.

(** The calls thread [t] is inside of; a thread never seen is idle. *)
Definition stack_of (t : thread_id) (T : gmap thread_id (list Frame)) : list Frame :=
  default [] (T !! t).

(** A thread runs caller code, and so can call the coordinator, when it is
    idle or inside a callback body. *)
Definition can_call (st : list Frame) : bool :=
  match st with
  | [] => true
  | InProcess_callback _ _ _ :: _ => true
  | _ => false
  end.

(** Where a piece of [Process] leaves the calling thread. *)
Definition after_Process (point : string) (args : cb_args) (o : Outcome)
    (rest : list Frame) : list Frame :=
  match o with
  | Returned => rest
  | Blocked => InProcess_wait point args :: rest
  | Calling cb => InProcess_callback point cb args :: rest
  end.

(** Where the test of a removal leaves the calling thread. *)
Definition after_removal (waiting : Frame) (o : Outcome) (rest : list Frame)
  : list Frame :=
  match o with
  | Blocked => waiting :: rest
  | _ => rest
  end.

Inductive Label :=
| L_EnableProcessing (t : thread_id)
| L_DisableProcessing (t : thread_id)
| L_LoadDependencyAndMarkers (t : thread_id) (dependencies markers : list SyncPointPair)
| L_SetCallBack (t : thread_id) (point : string) (cb : Callback)
| L_ClearTrace (t : thread_id)
| L_ClearCallBack (t : thread_id) (point : string) (o : Outcome)
| L_ClearAllCallBacks (t : thread_id) (o : Outcome)
| L_Process_enter (t : thread_id) (point : string) (args : cb_args) (enabled : bool)
| L_Process (t : thread_id) (point : string) (o : Outcome) (notified : bool).

(** One step is one uninterrupted piece of one thread: a whole member
    function that never suspends, the atomic read of [enabled_], or a piece
    run under the mutex.  A thread parked in [cv_.wait] may resume at any
    time (wake-ups may be spurious); what it does then is to test again. *)
Inductive step : System → Label → System → Prop :=
| step_EnableProcessing s T t :
    can_call (stack_of t T) = true →
    step (mkSystem s T) (L_EnableProcessing t) (mkSystem (EnableProcessing s) T)
| step_DisableProcessing s T t :
    can_call (stack_of t T) = true →
    step (mkSystem s T) (L_DisableProcessing t) (mkSystem (DisableProcessing s) T)
| step_LoadDependencyAndMarkers s T t dependencies markers :
    can_call (stack_of t T) = true →
    step (mkSystem s T) (L_LoadDependencyAndMarkers t dependencies markers)
         (mkSystem (LoadDependencyAndMarkers dependencies markers s) T)
| step_SetCallBack s T t point cb :
    can_call (stack_of t T) = true →
    step (mkSystem s T) (L_SetCallBack t point cb) (mkSystem (SetCallBack point cb s) T)
| step_ClearTrace s T t :
    can_call (stack_of t T) = true →
    step (mkSystem s T) (L_ClearTrace t) (mkSystem (ClearTrace s) T)
| step_ClearCallBack s T t point s' o n :
    can_call (stack_of t T) = true →
    ClearCallBack point s = mkResult s' o n →
    step (mkSystem s T) (L_ClearCallBack t point o)
         (mkSystem s' (<[t := after_removal (InClearCallBack_wait point) o (stack_of t T)]> T))
| step_ClearCallBack_wake s T t point rest s' o n :
    stack_of t T = InClearCallBack_wait point :: rest →
    ClearCallBack point s = mkResult s' o n →
    step (mkSystem s T) (L_ClearCallBack t point o)
         (mkSystem s' (<[t := after_removal (InClearCallBack_wait point) o rest]> T))
| step_ClearAllCallBacks s T t s' o n :
    can_call (stack_of t T) = true →
    ClearAllCallBacks s = mkResult s' o n →
    step (mkSystem s T) (L_ClearAllCallBacks t o)
         (mkSystem s' (<[t := after_removal InClearAllCallBacks_wait o (stack_of t T)]> T))
| step_ClearAllCallBacks_wake s T t rest s' o n :
    stack_of t T = InClearAllCallBacks_wait :: rest →
    ClearAllCallBacks s = mkResult s' o n →
    step (mkSystem s T) (L_ClearAllCallBacks t o)
         (mkSystem s' (<[t := after_removal InClearAllCallBacks_wait o rest]> T))
| step_Process_disabled s T t point args :
    can_call (stack_of t T) = true →
    enabled_ s = false →
    step (mkSystem s T) (L_Process_enter t point args false) (mkSystem s T)
| step_Process_enabled s T t point args :
    can_call (stack_of t T) = true →
    enabled_ s = true →
    step (mkSystem s T) (L_Process_enter t point args true)
         (mkSystem s (<[t := InProcess_lock point args :: stack_of t T]> T))
| step_Process_locked s T t point args rest s' o n :
    stack_of t T = InProcess_lock point args :: rest →
    Process_locked point t s = mkResult s' o n →
    step (mkSystem s T) (L_Process t point o n)
         (mkSystem s' (<[t := after_Process point args o rest]> T))
| step_Process_wake s T t point args rest s' o n :
    stack_of t T = InProcess_wait point args :: rest →
    Process_wake point t s = mkResult s' o n →
    step (mkSystem s T) (L_Process t point o n)
         (mkSystem s' (<[t := after_Process point args o rest]> T))
| step_Process_resume s T t point cb args rest s' o n :
    stack_of t T = InProcess_callback point cb args :: rest →
    Process_resume point s = mkResult s' o n →
    step (mkSystem s T) (L_Process t point o n)
         (mkSystem s' (<[t := rest]> T)).

(** Executions, with the labels of their steps in the order they happen. *)
Inductive exec (σ0 : System) : list Label → System → Prop :=
| exec_refl : exec σ0 [] σ0
| exec_step tr σ l σ' : exec σ0 tr σ → step σ l σ' → exec σ0 (tr ++ [l]) σ'.

(** What a step shows to an observer. *)

(** Point [p] enters [cleared_points_]: lines 114-115 ran. *)
Definition clears (p : string) (l : Label) : bool :=
  match l with
  | L_Process _ q _ notified => bool_decide (q = p) && notified
  | _ => false
  end.

(** The callback of point [p] is called: line 110. *)
Definition invokes (p : string) (l : Label) : bool :=
  match l with
  | L_Process _ q o _ =>
      bool_decide (q = p) && match o with Calling _ => true | _ => false end
  | _ => false
  end.

Definition is_reload (l : Label) : bool :=
  match l with
  | L_LoadDependencyAndMarkers _ _ _ => true
  | _ => false
  end.

Definition is_reset (l : Label) : bool :=
  match l with
  | L_LoadDependencyAndMarkers _ _ _ | L_ClearTrace _ => true
  | _ => false
  end.

(** How the test of a removal ended, when the step is one. *)
Definition removal_outcome (l : Label) : option Outcome :=
  match l with
  | L_ClearCallBack _ _ o | L_ClearAllCallBacks _ o => Some o
  | _ => None
  end.

(** Callbacks being executed by a thread, and by all threads. *)
Definition is_callback (f : Frame) : bool :=
  match f with
  | InProcess_callback _ _ _ => true
  | _ => false
  end.

Fixpoint callbacks_in (st : list Frame) : nat :=
  match st with
  | [] => 0
  | f :: rest => ((if is_callback f then 1 else 0) + callbacks_in rest)%nat
  end.

Definition in_flight (T : gmap thread_id (list Frame)) : nat :=
  map_fold (λ _ st n, (callbacks_in st + n)%nat) 0%nat T.

(** The system before any thread has touched the coordinator. *)
Definition initial : System := mkSystem Impl_new ∅.

(** [num_callbacks_running_] is the number of callbacks being executed. *)
Definition counter_ok (σ : System) : Prop :=
  num_callbacks_running_ (impl σ) = Z.of_nat (in_flight (threads σ)).

(** ** The dependency relation of a loaded graph *)

(** The vectors a loaded index holds for a point, in loading order. *)
Definition preds_in (es : list SyncPointPair) (b : string) : list string :=
  predecessor <$> filter (λ e, successor e = b) es.

Definition succs_in (es : list SyncPointPair) (a : string) : list string :=
  successor <$> filter (λ e, predecessor e = a) es.

Definition edge (es : list SyncPointPair) (a b : string) : Prop :=
  mkPair a b ∈ es.

(** [depends es a b]: [b] depends, directly or transitively, on [a]. *)
Definition depends (es : list SyncPointPair) : relation string := tc (edge es).


(** The piece went past the wait loop: it cleared the point or called its
    callback. *)
Definition passed (r : Result) : Prop :=
  notify_all r = true ∨ ∃ cb, outcome r = Calling cb.

(** Point [p] has been cleared by some step of the trace. *)
Definition fired (tr : list Label) (p : string) : Prop :=
  ∃ l, l ∈ tr ∧ clears p l = true.

(** What holds of a graph [es] along an execution with trace [tr] that does
    not reload it: the predecessor index still holds the loaded vectors, and
    whatever is cleared, was cleared or is running its callback has had all
    its predecessors cleared by a step of [tr]. *)
Record ordered (es : list SyncPointPair) (tr : list Label) (σ : System) : Prop := {
  ord_preds : ∀ p, at_or_empty p (predecessors_ (impl σ)) = preds_in es p;
  ord_cleared : ∀ p, p ∈ cleared_points_ (impl σ) → fired tr p;
  ord_closed : ∀ a p, fired tr p → edge es a p → fired tr a;
  ord_running : ∀ t p cb args a,
    InProcess_callback p cb args ∈ stack_of t (threads σ) → edge es a p → fired tr a;
}.



(** ** The indexed call-site macro of [sync_point.h] (with [UNIT_TEST] defined)

    It expands to a call of [Process] on the one instance [GetInstance]
    returns; the wrappers of [SyncPoint] forward to [Impl]. *)

(** [std::to_string(int)]: the decimal digits, with a leading [-] for a
    negative value. *)
Definition to_string (index : Z) : string := pretty index.

(** [TEST_IDX_SYNC_POINT(x, index)]: [Process(x + std::to_string(index))],
    the argument vector defaulted to the empty one. *)
Definition TEST_IDX_SYNC_POINT (x : string) (index : Z) (tid : thread_id) (s : Impl)
  : Result :=
  Process (x +:+ to_string index) [] tid s.

(** ** What an execution keeps of a loaded graph *)

(** The coordinator still holds the graph [es] with the marker pairs [ms]:
    the predecessor and marker indices hold the loaded vectors and only
    marked successors have a marked-thread record. *)
Record loaded_graph (es ms : list SyncPointPair) (s : Impl) : Prop := {
  lg_preds : ∀ p, at_or_empty p (predecessors_ s) = preds_in es p;
  lg_markers : ∀ p, at_or_empty p (markers_ s) = succs_in ms p;
  lg_records : ∀ S v, marked_thread_id_ s !! S = Some v → ∃ P, edge ms P S;
}.

(** The point of a call of [Process] that is past its marking loop. *)
Definition past_marking (f : Frame) : option string :=
  match f with
  | InProcess_wait p _ | InProcess_callback p _ _ => Some p
  | _ => None
  end.

(** A thread parked in a removal. *)
Definition is_removal_wait (f : Frame) : bool :=
  match f with
  | InClearCallBack_wait _ | InClearAllCallBacks_wait => true
  | _ => false
  end.

(** What marking has achieved along an execution with trace [tr]: whoever
    cleared a marker predecessor, or is past the marking loop for it, has
    left a record for each successor it marks, and a thread inside the
    callback of a marked successor is the recorded one. *)
Record affine (ms : list SyncPointPair) (tr : list Label) (σ : System) : Prop := {
  aff_fired : ∀ P S, edge ms P S → fired tr P →
    is_Some (marked_thread_id_ (impl σ) !! S);
  aff_inside : ∀ t f P S, f ∈ stack_of t (threads σ) → past_marking f = Some P →
    edge ms P S → is_Some (marked_thread_id_ (impl σ) !! S);
  aff_owner : ∀ t S cb args P, InProcess_callback S cb args ∈ stack_of t (threads σ) →
    edge ms P S → marked_thread_id_ (impl σ) !! S = Some t;
}.

(** * Properties *)

(** ** Field updates and containers *)

Lemma at_or_empty_push_back k v b (m : gmap string (list string)) :
  at_or_empty b (push_back k v m)
  = if decide (k = b) then at_or_empty b m ++ [v] else at_or_empty b m.
Proof.
  unfold push_back, at_or_empty. case_decide as Hk.
  - subst. by rewrite lookup_insert_eq.
  - by rewrite lookup_insert_ne.
Qed.

Lemma at_or_empty_touch k b (m : gmap string (list string)) :
  at_or_empty b (touch k m) = at_or_empty b m.
Proof.
  unfold touch, at_or_empty. destruct (m !! k) eqn:Hk; [done|].
  destruct (decide (k = b)) as [->|Hne].
  - by rewrite lookup_insert_eq, Hk.
  - by rewrite lookup_insert_ne.
Qed.

Lemma emplace_lookup k t (m : gmap string thread_id) j :
  emplace k t m !! j
  = match m !! j with
    | Some v => Some v
    | None => if decide (j = k) then Some t else None
    end.
Proof.
  unfold emplace. destruct (m !! k) eqn:Hk.
  - destruct (m !! j) eqn:Hj; [done|]. case_decide; congruence.
  - destruct (decide (j = k)) as [->|Hne].
    + by rewrite lookup_insert_eq, Hk.
    + rewrite lookup_insert_ne by done. by destruct (m !! j).
Qed.

Lemma emplace_all_lookup ms t (m : gmap string thread_id) j :
  foldl (λ m marked_point, emplace marked_point t m) m ms !! j
  = match m !! j with
    | Some v => Some v
    | None => if decide (j ∈ ms) then Some t else None
    end.
Proof.
  revert m. induction ms as [|k ms IH]; intros m.
  - cbn [foldl]. destruct (m !! j); [done|].
    destruct (decide (j ∈ [])) as [H|]; [|done]. by apply elem_of_nil in H.
  - cbn [foldl]. rewrite IH, emplace_lookup. destruct (m !! j) eqn:Hj; [done|].
    destruct (decide (j = k)) as [->|Hne].
    + rewrite decide_True; [done|]. apply list_elem_of_here.
    + destruct (decide (j ∈ ms)) as [Hin|Hnin].
      * rewrite decide_True; [done|]. by apply list_elem_of_further.
      * rewrite decide_False; [done|]. intros Hc. apply elem_of_cons in Hc. tauto.
Qed.

Lemma elem_of_preds_in es a b : a ∈ preds_in es b ↔ edge es a b.
Proof.
  unfold preds_in, edge. rewrite list_elem_of_fmap. split.
  - intros ([p s] & -> & Hin). apply list_elem_of_filter in Hin as [Hs Hin].
    simpl in *. by subst.
  - intros Hin. exists (mkPair a b). split; [done|].
    apply list_elem_of_filter. by split.
Qed.

Lemma elem_of_succs_in es a b : b ∈ succs_in es a ↔ edge es a b.
Proof.
  unfold succs_in, edge. rewrite list_elem_of_fmap. split.
  - intros ([p s] & -> & Hin). apply list_elem_of_filter in Hin as [Hs Hin].
    simpl in *. by subst.
  - intros Hin. exists (mkPair a b). split; [done|].
    apply list_elem_of_filter. by split.
Qed.

Lemma preds_in_snoc es e b :
  preds_in (es ++ [e]) b
  = if decide (successor e = b) then preds_in es b ++ [predecessor e] else preds_in es b.
Proof.
  unfold preds_in. rewrite filter_app, fmap_app.
  rewrite filter_cons, filter_nil.
  case_decide; simpl; [done|]. by rewrite app_nil_r.
Qed.

Lemma succs_in_snoc es e a :
  succs_in (es ++ [e]) a
  = if decide (predecessor e = a) then succs_in es a ++ [successor e] else succs_in es a.
Proof.
  unfold succs_in. rewrite filter_app, fmap_app.
  rewrite filter_cons, filter_nil.
  case_decide; simpl; [done|]. by rewrite app_nil_r.
Qed.

(** ** What the two loops of [LoadDependencyAndMarkers] build *)

Section load.
Implicit Types (s : Impl) (es : list SyncPointPair).

Lemma load_dependency_untouched s es :
  let s' := foldl load_dependency s es in
  enabled_ s' = enabled_ s ∧ num_callbacks_running_ s' = num_callbacks_running_ s ∧
  callbacks_ s' = callbacks_ s ∧ markers_ s' = markers_ s ∧
  marked_thread_id_ s' = marked_thread_id_ s ∧ cleared_points_ s' = cleared_points_ s.
Proof.
  revert s. induction es as [|e es IH]; intros s; simpl; [done|].
  destruct (IH (load_dependency s e)) as (?&?&?&?&?&?). simpl in *.
  repeat split; congruence.
Qed.

Lemma load_marker_untouched s es :
  let s' := foldl load_marker s es in
  enabled_ s' = enabled_ s ∧ num_callbacks_running_ s' = num_callbacks_running_ s ∧
  callbacks_ s' = callbacks_ s ∧
  marked_thread_id_ s' = marked_thread_id_ s ∧ cleared_points_ s' = cleared_points_ s.
Proof.
  revert s. induction es as [|e es IH]; intros s; simpl; [done|].
  destruct (IH (load_marker s e)) as (?&?&?&?&?). simpl in *.
  repeat split; congruence.
Qed.

(** On the two dependency indices the marker loop does what the
    dependency loop does. *)
Lemma load_marker_as_dependency s s' es :
  successors_ s = successors_ s' → predecessors_ s = predecessors_ s' →
  successors_ (foldl load_marker s es) = successors_ (foldl load_dependency s' es) ∧
  predecessors_ (foldl load_marker s es) = predecessors_ (foldl load_dependency s' es).
Proof.
  revert s s'. induction es as [|e es IH]; intros s s' Hs Hp; simpl; [done|].
  apply IH; simpl; congruence.
Qed.

Lemma load_dependency_indices s es a :
  at_or_empty a (successors_ (foldl load_dependency s es))
    = at_or_empty a (successors_ s) ++ succs_in es a ∧
  at_or_empty a (predecessors_ (foldl load_dependency s es))
    = at_or_empty a (predecessors_ s) ++ preds_in es a.
Proof.
  induction es as [|e es IH] using rev_ind.
  - unfold succs_in, preds_in. simpl. by rewrite !app_nil_r.
  - rewrite foldl_app. simpl. destruct IH as [IHs IHp].
    rewrite !at_or_empty_push_back, succs_in_snoc, preds_in_snoc, IHs, IHp.
    split; case_decide; by rewrite ?app_assoc.
Qed.

Lemma load_marker_markers s es a :
  at_or_empty a (markers_ (foldl load_marker s es))
    = at_or_empty a (markers_ s) ++ succs_in es a.
Proof.
  induction es as [|e es IH] using rev_ind.
  - unfold succs_in. simpl. by rewrite app_nil_r.
  - rewrite foldl_app. simpl.
    rewrite at_or_empty_push_back, succs_in_snoc, IH.
    case_decide; by rewrite ?app_assoc.
Qed.

Lemma load_as_one_list dependencies markers s :
  successors_ (LoadDependencyAndMarkers dependencies markers s)
    = successors_ (LoadDependencyAndMarkers (dependencies ++ markers) [] s) ∧
  predecessors_ (LoadDependencyAndMarkers dependencies markers s)
    = predecessors_ (LoadDependencyAndMarkers (dependencies ++ markers) [] s).
Proof.
  unfold LoadDependencyAndMarkers. simpl. rewrite foldl_app.
  by apply load_marker_as_dependency.
Qed.

Lemma load_indices dependencies markers s a :
  let s' := LoadDependencyAndMarkers dependencies markers s in
  at_or_empty a (successors_ s') = succs_in (dependencies ++ markers) a ∧
  at_or_empty a (predecessors_ s') = preds_in (dependencies ++ markers) a ∧
  at_or_empty a (markers_ s') = succs_in markers a.
Proof.
  simpl. destruct (load_as_one_list dependencies markers s) as [-> ->].
  unfold LoadDependencyAndMarkers at 1 2. simpl.
  destruct (load_dependency_indices (clear_graph s) (dependencies ++ markers) a)
    as [-> ->].
  unfold LoadDependencyAndMarkers. rewrite load_marker_markers.
  destruct (load_dependency_untouched (clear_graph s) dependencies) as (_&_&_&->&_).
  done.
Qed.

(** The result of a reload is a function of its two arguments only, as far
    as the graph goes. *)
Lemma load_forgets dependencies markers s s' :
  let r := LoadDependencyAndMarkers dependencies markers s in
  let r' := LoadDependencyAndMarkers dependencies markers s' in
  successors_ r = successors_ r' ∧ predecessors_ r = predecessors_ r' ∧
  markers_ r = markers_ r'.
Proof.
  simpl. unfold LoadDependencyAndMarkers.
  assert (Hgraph : ∀ es u u',
    successors_ u = successors_ u' → predecessors_ u = predecessors_ u' →
    markers_ u = markers_ u' →
    successors_ (foldl load_dependency u es) = successors_ (foldl load_dependency u' es) ∧
    predecessors_ (foldl load_dependency u es) = predecessors_ (foldl load_dependency u' es) ∧
    markers_ (foldl load_dependency u es) = markers_ (foldl load_dependency u' es)).
  { induction es as [|e es IH]; intros u u' ? ? ?; simpl; [done|].
    apply IH; simpl; congruence. }
  assert (Hmark : ∀ es u u',
    successors_ u = successors_ u' → predecessors_ u = predecessors_ u' →
    markers_ u = markers_ u' →
    successors_ (foldl load_marker u es) = successors_ (foldl load_marker u' es) ∧
    predecessors_ (foldl load_marker u es) = predecessors_ (foldl load_marker u' es) ∧
    markers_ (foldl load_marker u es) = markers_ (foldl load_marker u' es)).
  { induction es as [|e es IH]; intros u u' ? ? ?; simpl; [done|].
    apply IH; simpl; congruence. }
  destruct (Hgraph dependencies (clear_graph s) (clear_graph s')) as (?&?&?); [done..|].
  by apply Hmark.
Qed.

Lemma load_untouched dependencies markers s :
  let s' := LoadDependencyAndMarkers dependencies markers s in
  enabled_ s' = enabled_ s ∧ num_callbacks_running_ s' = num_callbacks_running_ s ∧
  callbacks_ s' = callbacks_ s ∧
  marked_thread_id_ s' = ∅ ∧ cleared_points_ s' = ∅.
Proof.
  simpl. unfold LoadDependencyAndMarkers.
  destruct (load_marker_untouched (foldl load_dependency (clear_graph s) dependencies) markers)
    as (->&->&->&->&->).
  destruct (load_dependency_untouched (clear_graph s) dependencies)
    as (->&->&->&_&->&->).
  done.
Qed.
End load.

(** ** Reloading the graph *)

(** C4: every marker pair handed to [LoadDependencyAndMarkers] is also entered
    into both dependency indices: after the call the successor's predecessor
    vector holds the marker predecessor and the predecessor's successor vector
    holds the marked successor, and the two indices are exactly those obtained
    by passing the marker pairs as further dependencies. *)
Theorem C4_marker_is_dependency dependencies markers s m :
  m ∈ markers →
  let s' := LoadDependencyAndMarkers dependencies markers s in
  predecessor m ∈ at_or_empty (successor m) (predecessors_ s') ∧
  successor m ∈ at_or_empty (predecessor m) (successors_ s') ∧
  successors_ s'
    = successors_ (LoadDependencyAndMarkers (dependencies ++ markers) [] s) ∧
  predecessors_ s'
    = predecessors_ (LoadDependencyAndMarkers (dependencies ++ markers) [] s).
Proof.
  intros Hm s'.
  destruct (load_indices dependencies markers s (successor m)) as (_ & Hp & _).
  destruct (load_indices dependencies markers s (predecessor m)) as (Hs & _ & _).
  destruct (load_as_one_list dependencies markers s) as [Hs1 Hp1].
  fold s' in Hp, Hs, Hs1, Hp1.
  assert (Hedge : edge (dependencies ++ markers) (predecessor m) (successor m)).
  { unfold edge. destruct m. simpl. apply elem_of_app. by right. }
  repeat split; [| |done..].
  - rewrite Hp. by apply elem_of_preds_in.
  - rewrite Hs. by apply elem_of_succs_in.
Qed.

Lemma C4_marker_is_dependency_witness :
  let s' := LoadDependencyAndMarkers
              [mkPair "Thread1First" "MarkedPoint"] [mkPair "Marker" "MarkedPoint"]
              Impl_new in
  "Marker" ∈ at_or_empty "MarkedPoint" (predecessors_ s') ∧
  "MarkedPoint" ∈ at_or_empty "Marker" (successors_ s') ∧
  successors_ s'
    = successors_ (LoadDependencyAndMarkers
                     ([mkPair "Thread1First" "MarkedPoint"] ++ [mkPair "Marker" "MarkedPoint"])
                     [] Impl_new) ∧
  predecessors_ s'
    = predecessors_ (LoadDependencyAndMarkers
                     ([mkPair "Thread1First" "MarkedPoint"] ++ [mkPair "Marker" "MarkedPoint"])
                     [] Impl_new).
Proof.
  apply (C4_marker_is_dependency
           [mkPair "Thread1First" "MarkedPoint"] [mkPair "Marker" "MarkedPoint"]
           Impl_new (mkPair "Marker" "MarkedPoint")).
  apply list_elem_of_here.
Defined.

(** C5: [LoadDependencyAndMarkers] replaces the whole graph in one atomic
    step.  Whatever the prior state, afterwards the successor, predecessor and
    marker indices are those built from the supplied pairs alone (the same as
    from a new coordinator, holding per point exactly the supplied pairs in
    order), the marked-thread records and the cleared-points set are empty, and
    in an interleaving a reload is a single step from the old state to that
    state: no state in between exists. *)
Theorem C5_reload_replaces_graph dependencies markers s :
  let s' := LoadDependencyAndMarkers dependencies markers s in
  let fresh := LoadDependencyAndMarkers dependencies markers Impl_new in
  (successors_ s' = successors_ fresh ∧ predecessors_ s' = predecessors_ fresh ∧
   markers_ s' = markers_ fresh) ∧
  (∀ a, at_or_empty a (successors_ s') = succs_in (dependencies ++ markers) a ∧
        at_or_empty a (predecessors_ s') = preds_in (dependencies ++ markers) a ∧
        at_or_empty a (markers_ s') = succs_in markers a) ∧
  marked_thread_id_ s' = ∅ ∧ cleared_points_ s' = ∅ ∧
  (∀ T t σ', step (mkSystem s T) (L_LoadDependencyAndMarkers t dependencies markers) σ' →
             σ' = mkSystem s' T).
Proof.
  intros s' fresh. split; [apply load_forgets|].
  split; [intros a; apply load_indices|].
  destruct (load_untouched dependencies markers s) as (_&_&_&Hm&Hc).
  repeat split; [done..|].
  intros T t σ' Hstep. by inversion Hstep.
Qed.

(** C10: [LoadDependencyAndMarkers] leaves the callback registry and the
    enabled flag (and the in-flight counter) as they were, for every prior
    state and every input: only the graph indices, the marker records and the
    cleared-points set are reset. *)
Theorem C10_reload_keeps_callbacks dependencies markers s :
  let s' := LoadDependencyAndMarkers dependencies markers s in
  callbacks_ s' = callbacks_ s ∧ enabled_ s' = enabled_ s ∧
  num_callbacks_running_ s' = num_callbacks_running_ s.
Proof.
  intros s'. destruct (load_untouched dependencies markers s) as (?&?&?&_).
  done.
Qed.

(** ** Clearing the trace *)

(** C9: [ClearTrace] empties exactly the cleared-points set: afterwards that
    set is empty, and the dependency indices, the marker index, the
    marked-thread records, the callback registry, the in-flight counter and the
    enabled flag are what they were. *)
Theorem C9_ClearTrace_only_cleared_points s :
  cleared_points_ (ClearTrace s) = ∅ ∧
  successors_ (ClearTrace s) = successors_ s ∧
  predecessors_ (ClearTrace s) = predecessors_ s ∧
  markers_ (ClearTrace s) = markers_ s ∧
  marked_thread_id_ (ClearTrace s) = marked_thread_id_ s ∧
  callbacks_ (ClearTrace s) = callbacks_ s ∧
  num_callbacks_running_ (ClearTrace s) = num_callbacks_running_ s ∧
  enabled_ (ClearTrace s) = enabled_ s.
Proof. by repeat split. Qed.

(** ** Firing a point *)

(** C7: while [enabled_] is false, [Process] on any point with any arguments
    does nothing: it returns at once (it neither parks nor calls a callback
    nor notifies) and the coordinator's state is the one before the call; in an
    interleaving the entry of the call is a step that changes neither the
    coordinator nor any thread. *)
Theorem C7_disabled_is_noop s point args tid :
  enabled_ s = false →
  Process point args tid s = mkResult s Returned false ∧
  (∀ T b σ', step (mkSystem s T) (L_Process_enter tid point args b) σ' →
             b = false ∧ σ' = mkSystem s T).
Proof.
  intros Hoff. split.
  - unfold Process. by rewrite Hoff.
  - intros T b σ' Hstep. inversion Hstep; subst; [done|congruence].
Qed.

Lemma C7_disabled_is_noop_witness :
  Process "SyncPointTest::DummyArgsSyncPoint" [1234; 5678] 0%nat
          (SetCallBack "SyncPointTest::DummyArgsSyncPoint" 7%nat Impl_new)
  = mkResult (SetCallBack "SyncPointTest::DummyArgsSyncPoint" 7%nat Impl_new)
             Returned false.
Proof.
  apply (C7_disabled_is_noop
           (SetCallBack "SyncPointTest::DummyArgsSyncPoint" 7%nat Impl_new)
           "SyncPointTest::DummyArgsSyncPoint" [1234; 5678] 0%nat).
  reflexivity.
Defined.

(** *** What a piece of [Process] can change *)

(** After the marking loop a piece only touches the predecessor index (the
    entry [operator[]] creates), the counter and the cleared-points set. *)
Lemma Process_loop_frame point s :
  let s' := state (Process_loop point s) in
  enabled_ s' = enabled_ s ∧ successors_ s' = successors_ s ∧
  callbacks_ s' = callbacks_ s ∧ markers_ s' = markers_ s ∧
  marked_thread_id_ s' = marked_thread_id_ s ∧
  predecessors_ s' = touch point (predecessors_ s).
Proof.
  unfold Process_loop, PredecessorsAllCleared, Process_fire. simpl.
  destruct (all_cleared _ _); [|done]. simpl.
  by destruct (callbacks_ s !! point).
Qed.

Lemma mark_successors_frame point tid s :
  let s' := mark_successors point tid s in
  enabled_ s' = enabled_ s ∧ num_callbacks_running_ s' = num_callbacks_running_ s ∧
  successors_ s' = successors_ s ∧ predecessors_ s' = predecessors_ s ∧
  callbacks_ s' = callbacks_ s ∧ markers_ s' = markers_ s ∧
  cleared_points_ s' = cleared_points_ s.
Proof. unfold mark_successors. by destruct (markers_ s !! point). Qed.

Lemma mark_successors_lookup point tid s m :
  marked_thread_id_ (mark_successors point tid s) !! m
  = match marked_thread_id_ s !! m with
    | Some v => Some v
    | None => if decide (m ∈ at_or_empty point (markers_ s)) then Some tid else None
    end.
Proof.
  unfold mark_successors, at_or_empty.
  destruct (markers_ s !! point) as [marks|]; simpl.
  - apply emplace_all_lookup.
  - destruct (marked_thread_id_ s !! m); [done|].
    destruct (decide (m ∈ [])) as [H|]; [|done]. by apply elem_of_nil in H.
Qed.

Lemma Process_marked_thread_id point args tid s :
  marked_thread_id_ (state (Process point args tid s))
  = if enabled_ s then marked_thread_id_ (mark_successors point tid s)
    else marked_thread_id_ s.
Proof.
  unfold Process, Process_locked. destruct (enabled_ s); simpl; [|done].
  destruct (DisabledByMarker _ _ _); [done|].
  by destruct (Process_loop_frame point (mark_successors point tid s)) as (_&_&_&_&->&_).
Qed.

Lemma Process_enabled point args tid s :
  enabled_ (state (Process point args tid s)) = enabled_ s.
Proof.
  unfold Process, Process_locked. destruct (enabled_ s) eqn:He; simpl; [|done].
  destruct (mark_successors_frame point tid s) as (Hm&_).
  destruct (DisabledByMarker _ _ _); simpl; [congruence|].
  destruct (Process_loop_frame point (mark_successors point tid s)) as (->&_).
  congruence.
Qed.

(** A record, once made, survives every later call of [Process]. *)
Lemma Process_keeps_record point args tid s m v :
  marked_thread_id_ s !! m = Some v →
  marked_thread_id_ (state (Process point args tid s)) !! m = Some v.
Proof.
  intros Hm. rewrite Process_marked_thread_id. destruct (enabled_ s); [|done].
  by rewrite mark_successors_lookup, Hm.
Qed.

(** C1 (counterexample): on the graph with the single marker pair
    (Marker, MarkedPoint), thread 1 fires Marker and then thread 2 fires
    Marker.  The record for MarkedPoint is still thread 1: the second firing
    did not overwrite it, and it is thread 2, the most recent marking thread,
    that is suppressed at MarkedPoint while thread 1 is not. *)
Lemma C1_record_not_overwritten :
  let s0 := LoadDependencyAndMarkers [] [mkPair "Marker" "MarkedPoint"]
              (EnableProcessing Impl_new) in
  let s1 := state (Process "Marker" [] 1%nat s0) in
  let s2 := state (Process "Marker" [] 2%nat s1) in
  markers_ s1 !! "Marker" = Some ["MarkedPoint"] ∧
  marked_thread_id_ s1 !! "MarkedPoint" = Some 1%nat ∧
  marked_thread_id_ s2 !! "MarkedPoint" = Some 1%nat ∧
  marked_thread_id_ s2 !! "MarkedPoint" ≠ Some 2%nat ∧
  DisabledByMarker "MarkedPoint" 2%nat s2 = true ∧
  DisabledByMarker "MarkedPoint" 1%nat s2 = false.
Proof. vm_compute. repeat split; congruence. Qed.

(** C1 (amended): when [Process] is called, with processing enabled, on a
    marker predecessor, every successor it marks ends up with a record: the
    one it already had if it had one, the calling thread otherwise.  So over
    every sequence of firings of the same marker predecessor the record that
    decides suppression of a marked successor is the one of the earliest
    firing (or the one already present before it), never a later one. *)
Theorem C1_first_marking_stays s point args tid marks m :
  enabled_ s = true →
  markers_ s !! point = Some marks →
  m ∈ marks →
  let fire := λ (s : Impl) (t : thread_id), state (Process point args t s) in
  let first := default tid (marked_thread_id_ s !! m) in
  marked_thread_id_ (fire s tid) !! m = Some first ∧
  ∀ later,
    marked_thread_id_ (foldl fire (fire s tid) later) !! m = Some first ∧
    ∀ t, DisabledByMarker m t (foldl fire (fire s tid) later) = bool_decide (t ≠ first).
Proof.
  intros Hon Hmarks Hm fire first.
  assert (Hfirst : marked_thread_id_ (fire s tid) !! m = Some first).
  { unfold fire. rewrite Process_marked_thread_id, Hon, mark_successors_lookup.
    unfold first, at_or_empty. rewrite Hmarks. simpl.
    destruct (marked_thread_id_ s !! m); [done|]. by rewrite decide_True. }
  split; [done|]. intros later.
  assert (Hlater : marked_thread_id_ (foldl fire (fire s tid) later) !! m = Some first).
  { revert Hfirst. generalize (fire s tid). induction later as [|t later IH]; intros u Hu.
    - done.
    - simpl. apply IH. unfold fire. by apply Process_keeps_record. }
  split; [done|]. intros t. unfold DisabledByMarker. by rewrite Hlater.
Qed.

Lemma C1_first_marking_stays_witness :
  let s := LoadDependencyAndMarkers [] [mkPair "Marker" "MarkedPoint"]
             (EnableProcessing Impl_new) in
  let fire := λ (s : Impl) (t : thread_id), state (Process "Marker" [] t s) in
  marked_thread_id_ (fire s 1%nat) !! "MarkedPoint" = Some 1%nat ∧
  marked_thread_id_ (foldl fire (fire s 1%nat) [2%nat; 3%nat]) !! "MarkedPoint"
    = Some 1%nat.
Proof.
  pose proof (C1_first_marking_stays
                (LoadDependencyAndMarkers [] [mkPair "Marker" "MarkedPoint"]
                   (EnableProcessing Impl_new))
                "Marker" [] 1%nat ["MarkedPoint"] "MarkedPoint"
                eq_refl eq_refl (list_elem_of_here _ _)) as [H1 H2].
  split; [exact H1|]. exact (proj1 (H2 [2%nat; 3%nat])).
Defined.

(** C2 (counterexample): markers (Marker, MarkedPoint) and (MarkedPoint, Next).
    Thread 1 fires Marker, so MarkedPoint is recorded for thread 1.  Thread 2
    then fires MarkedPoint: the call is suppressed, yet it has recorded
    thread 2 against Next, so the state is not the one before the call. *)
Lemma C2_suppressed_call_leaves_a_record :
  let s0 := LoadDependencyAndMarkers []
              [mkPair "Marker" "MarkedPoint"; mkPair "MarkedPoint" "Next"]
              (EnableProcessing Impl_new) in
  let s1 := state (Process "Marker" [] 1%nat s0) in
  let r := Process "MarkedPoint" [] 2%nat s1 in
  marked_thread_id_ s1 !! "MarkedPoint" = Some 1%nat ∧
  outcome r = Returned ∧
  marked_thread_id_ s1 !! "Next" = None ∧
  marked_thread_id_ (state r) !! "Next" = Some 2%nat ∧
  state r ≠ s1.
Proof.
  intros s0 s1 r.
  split_and!; [vm_compute; reflexivity..|].
  intros Heq. apply (f_equal (λ u, marked_thread_id_ u !! "Next")) in Heq.
  vm_compute in Heq. discriminate Heq.
Qed.

(** C2 (amended): for a point with a recorded marking thread, [Process] called
    from any other thread is suppressed: it returns without parking, without
    calling the callback and without notifying, and the cleared-points set,
    the callback registry, the counter, the enabled flag and the three graph
    indices are what they were.  The marked-thread records keep every record
    they had; the only change there can be is that, processing being enabled
    and the point being itself a marker predecessor, the calling thread is
    recorded for those successors it marks that had no record.  When there is
    no such successor the state is exactly the one before the call. *)
Theorem C2_suppressed_firing s point args tid marked :
  marked_thread_id_ s !! point = Some marked →
  tid ≠ marked →
  let r := Process point args tid s in
  outcome r = Returned ∧ notify_all r = false ∧
  state r = (if enabled_ s then mark_successors point tid s else s) ∧
  (cleared_points_ (state r) = cleared_points_ s ∧
   callbacks_ (state r) = callbacks_ s ∧
   num_callbacks_running_ (state r) = num_callbacks_running_ s ∧
   enabled_ (state r) = enabled_ s ∧
   successors_ (state r) = successors_ s ∧
   predecessors_ (state r) = predecessors_ s ∧
   markers_ (state r) = markers_ s) ∧
  (∀ m, marked_thread_id_ (state r) !! m
        = match marked_thread_id_ s !! m with
          | Some v => Some v
          | None => if enabled_ s && bool_decide (m ∈ at_or_empty point (markers_ s))
                    then Some tid else None
          end) ∧
  ((∀ m, m ∈ at_or_empty point (markers_ s) → is_Some (marked_thread_id_ s !! m)) →
   state r = s).
Proof.
  intros Hrec Hne r.
  assert (Hr : r = mkResult (if enabled_ s then mark_successors point tid s else s)
                            Returned false).
  { unfold r, Process, Process_locked. destruct (enabled_ s); simpl; [|done].
    unfold DisabledByMarker. rewrite mark_successors_lookup, Hrec.
    by rewrite bool_decide_eq_true_2. }
  rewrite Hr. simpl. repeat split; try done.
  1-7: destruct (enabled_ s) eqn:He; [|done];
       destruct (mark_successors_frame point tid s) as (?&?&?&?&?&?&?); congruence.
  - intros m. destruct (enabled_ s); simpl.
    + rewrite mark_successors_lookup. destruct (marked_thread_id_ s !! m); [done|].
      destruct (decide _) as [Hin|Hnin].
      * by rewrite bool_decide_eq_true_2.
      * by rewrite bool_decide_eq_false_2.
    + by destruct (marked_thread_id_ s !! m).
  - intros Hall. destruct (enabled_ s); [|done].
    assert (Hsame : marked_thread_id_ (mark_successors point tid s) = marked_thread_id_ s).
    { apply map_eq. intros m. rewrite mark_successors_lookup.
      destruct (marked_thread_id_ s !! m) eqn:Hm; [done|].
      destruct (decide _) as [Hin|Hnin]; [|done].
      apply Hall in Hin as [v Hv]. congruence. }
    revert Hsame. unfold mark_successors.
    destruct (markers_ s !! point); [|done]. simpl. intros ->. by destruct s.
Qed.

Lemma C2_suppressed_firing_witness :
  let s0 := LoadDependencyAndMarkers
              [mkPair "Thread1First" "MarkedPoint"] [mkPair "Marker" "MarkedPoint"]
              (EnableProcessing (SetCallBack "MarkedPoint" 1%nat Impl_new)) in
  let s1 := state (Process "Marker" [] 2%nat s0) in
  let r := Process "MarkedPoint" [0] 1%nat s1 in
  outcome r = Returned ∧ notify_all r = false ∧ state r = s1.
Proof.
  intros s0 s1 r.
  assert (Hrec : marked_thread_id_ s1 !! "MarkedPoint" = Some 2%nat)
    by (vm_compute; reflexivity).
  assert (Hne : 1%nat ≠ 2%nat) by discriminate.
  assert (Hmarks : ∀ m, m ∈ at_or_empty "MarkedPoint" (markers_ s1) →
                        is_Some (marked_thread_id_ s1 !! m)).
  { intros m Hm.
    replace (at_or_empty "MarkedPoint" (markers_ s1)) with (@nil string) in Hm
      by (vm_compute; reflexivity).
    by apply elem_of_nil in Hm. }
  destruct (C2_suppressed_firing s1 "MarkedPoint" [0] 1%nat 2%nat Hrec Hne)
    as (Ho & Hn & _ & _ & _ & Hsame).
  exact (conj Ho (conj Hn (Hsame Hmarks))).
Defined.

(** ** Executions *)

Lemma exec_one σ l σ' : step σ l σ' → exec σ [l] σ'.
Proof. intros Hs. apply (exec_step σ [] σ l σ'); [constructor|done]. Qed.

Lemma exec_app σ0 tr1 σ1 tr2 σ2 :
  exec σ0 tr1 σ1 → exec σ1 tr2 σ2 → exec σ0 (tr1 ++ tr2) σ2.
Proof.
  intros H1 H2. induction H2 as [|tr σ l σ' _ IH Hs].
  - by rewrite app_nil_r.
  - rewrite app_assoc. by eapply exec_step.
Qed.

Lemma exec_split σ0 tr1 l tr2 σ :
  exec σ0 (tr1 ++ l :: tr2) σ →
  ∃ σ1 σ2, exec σ0 tr1 σ1 ∧ step σ1 l σ2 ∧ exec σ2 tr2 σ.
Proof.
  revert σ. induction tr2 as [|l2 tr2 IH] using rev_ind; intros σ Hex.
  - inversion Hex as [Hnil|tr σ1 l' σ' Hpre Hs Heq]; subst.
    + by destruct tr1.
    + apply app_inj_tail in Heq as [-> ->].
      exists σ1, σ. split_and!; [done..|constructor].
  - inversion Hex as [Hnil|tr σ1 l' σ' Hpre Hs Heq]; subst.
    + by destruct tr1.
    + replace (tr1 ++ l :: tr2 ++ [l2]) with ((tr1 ++ l :: tr2) ++ [l2]) in Heq
        by (by rewrite <- app_assoc).
      apply app_inj_tail in Heq as [-> ->].
      destruct (IH _ Hpre) as (σa & σb & Ha & Hb & Hc).
      exists σa, σb. split_and!; [done..|]. by eapply exec_step.
Qed.

(** ** The cleared-points set only grows between resets *)

Lemma Process_loop_cleared point s :
  let r := Process_loop point s in
  cleared_points_ (state r)
  = if notify_all r then {[point]} ∪ cleared_points_ s else cleared_points_ s.
Proof.
  unfold Process_loop, PredecessorsAllCleared, Process_fire. simpl.
  destruct (all_cleared _ _); [|done]. simpl.
  by destruct (callbacks_ s !! point).
Qed.

Lemma Process_locked_cleared point tid s :
  let r := Process_locked point tid s in
  cleared_points_ (state r)
  = if notify_all r then {[point]} ∪ cleared_points_ s else cleared_points_ s.
Proof.
  simpl. unfold Process_locked.
  destruct (mark_successors_frame point tid s) as (_&_&_&_&_&_&Hc).
  destruct (DisabledByMarker _ _ _); simpl; [done|].
  by rewrite Process_loop_cleared, Hc.
Qed.

Lemma Process_wake_cleared point tid s :
  let r := Process_wake point tid s in
  cleared_points_ (state r)
  = if notify_all r then {[point]} ∪ cleared_points_ s else cleared_points_ s.
Proof.
  simpl. unfold Process_wake.
  destruct (DisabledByMarker _ _ _); simpl; [done|].
  by rewrite Process_loop_cleared.
Qed.

Lemma result_parts (r : Result) s o n :
  r = mkResult s o n → s = state r ∧ o = outcome r ∧ n = notify_all r.
Proof. by intros ->. Qed.

(** Case analysis on a step, with each result named by the piece that
    produced it. *)
Ltac step_cases H :=
  inversion H; subst; simpl in *;
  repeat match goal with
         | Hr : _ = mkResult _ _ _ |- _ => apply result_parts in Hr as (-> & -> & ->)
         end.

Lemma ClearCallBack_frame point s :
  let s' := state (ClearCallBack point s) in
  enabled_ s' = enabled_ s ∧ num_callbacks_running_ s' = num_callbacks_running_ s ∧
  successors_ s' = successors_ s ∧ predecessors_ s' = predecessors_ s ∧
  markers_ s' = markers_ s ∧ marked_thread_id_ s' = marked_thread_id_ s ∧
  cleared_points_ s' = cleared_points_ s.
Proof. unfold ClearCallBack. by case_bool_decide. Qed.

Lemma ClearAllCallBacks_frame s :
  let s' := state (ClearAllCallBacks s) in
  enabled_ s' = enabled_ s ∧ num_callbacks_running_ s' = num_callbacks_running_ s ∧
  successors_ s' = successors_ s ∧ predecessors_ s' = predecessors_ s ∧
  markers_ s' = markers_ s ∧ marked_thread_id_ s' = marked_thread_id_ s ∧
  cleared_points_ s' = cleared_points_ s.
Proof. unfold ClearAllCallBacks. by case_bool_decide. Qed.

Lemma step_cleared_points σ l σ' :
  step σ l σ' → is_reset l = false →
  cleared_points_ (impl σ) ⊆ cleared_points_ (impl σ').
Proof.
  intros Hstep Hl. step_cases Hstep; try done.
  1-2: by destruct (ClearCallBack_frame point s) as (_&_&_&_&_&_&->).
  1-2: by destruct (ClearAllCallBacks_frame s) as (_&_&_&_&_&_&->).
  - rewrite Process_locked_cleared. destruct (notify_all _); set_solver.
  - rewrite Process_wake_cleared. destruct (notify_all _); set_solver.
  - set_solver.
Qed.

(** C8: membership in the cleared-points set is monotone under firing.  Over
    every execution made of [Process], [SetCallBack], [ClearCallBack],
    [ClearAllCallBacks], [EnableProcessing] and [DisableProcessing] steps of
    any threads, a point that is in the set stays in it; only an execution
    with a [ClearTrace] or a [LoadDependencyAndMarkers] step can lose it. *)
Theorem C8_cleared_is_monotone σ tr σ' p :
  exec σ tr σ' →
  Forall (λ l, is_reset l = false) tr →
  p ∈ cleared_points_ (impl σ) →
  p ∈ cleared_points_ (impl σ').
Proof.
  induction 1 as [|tr σ1 l σ2 _ IH Hstep]; intros Hall Hp; [done|].
  apply Forall_app in Hall as [Hall Hl]. rewrite Forall_singleton in Hl.
  pose proof (step_cleared_points _ _ _ Hstep Hl) as Hsub.
  apply Hsub. by apply IH.
Qed.

Lemma exec_cons σ l σ' tr σ'' : step σ l σ' → exec σ' tr σ'' → exec σ (l :: tr) σ''.
Proof. intros Hs Hex. apply (exec_app σ [l] σ' tr σ''); [by apply exec_one|done]. Qed.

Ltac by_computing := vm_compute; reflexivity.

(** Takes the step the head of the trace names, from a concrete state. *)
Ltac run_step :=
  lazymatch goal with
  | |- exec (mkSystem ?s ?T) (?l :: _) _ =>
    eapply exec_cons;
    [ lazymatch l with
      | L_EnableProcessing ?t => apply (step_EnableProcessing s T t)
      | L_DisableProcessing ?t => apply (step_DisableProcessing s T t)
      | L_LoadDependencyAndMarkers ?t ?ds ?ms =>
          apply (step_LoadDependencyAndMarkers s T t ds ms)
      | L_SetCallBack ?t ?p ?cb => apply (step_SetCallBack s T t p cb)
      | L_ClearTrace ?t => apply (step_ClearTrace s T t)
      | L_Process_enter ?t ?p ?a true => apply (step_Process_enabled s T t p a)
      | L_Process_enter ?t ?p ?a false => apply (step_Process_disabled s T t p a)
      | L_ClearCallBack ?t ?p ?o =>
          let st := eval vm_compute in (stack_of t T) in
          lazymatch st with
          | InClearCallBack_wait _ :: ?rest =>
              apply (step_ClearCallBack_wake s T t p rest (state (ClearCallBack p s)) o false)
          | _ => apply (step_ClearCallBack s T t p (state (ClearCallBack p s)) o false)
          end
      | L_ClearAllCallBacks ?t ?o =>
          let st := eval vm_compute in (stack_of t T) in
          lazymatch st with
          | InClearAllCallBacks_wait :: ?rest =>
              apply (step_ClearAllCallBacks_wake s T t rest (state (ClearAllCallBacks s)) o false)
          | _ => apply (step_ClearAllCallBacks s T t (state (ClearAllCallBacks s)) o false)
          end
      | L_Process ?t ?p ?o ?n =>
          let st := eval vm_compute in (stack_of t T) in
          lazymatch st with
          | InProcess_lock _ ?a :: ?rest =>
              apply (step_Process_locked s T t p a rest (state (Process_locked p t s)) o n)
          | InProcess_wait _ ?a :: ?rest =>
              apply (step_Process_wake s T t p a rest (state (Process_wake p t s)) o n)
          | InProcess_callback _ ?cb ?a :: ?rest =>
              apply (step_Process_resume s T t p cb a rest (state (Process_resume p s)) o n)
          end
      end; by_computing
    | ]
  end.

Ltac run_trace := repeat run_step; apply exec_refl.

Lemma C8_cleared_is_monotone_witness :
  let σ := mkSystem (state (Process "S1" [] 0%nat (EnableProcessing Impl_new))) ∅ in
  ∃ σ',
    exec σ [L_SetCallBack 0%nat "S2" 5%nat;
            L_Process_enter 1%nat "S2" [] true;
            L_Process 1%nat "S2" (Calling 5%nat) false;
            L_ClearCallBack 0%nat "S2" Blocked;
            L_Process 1%nat "S2" Returned true;
            L_ClearCallBack 0%nat "S2" Returned;
            L_DisableProcessing 0%nat] σ' ∧
    "S1" ∈ cleared_points_ (impl σ').
Proof.
  intros σ.
  assert (∃ σ',
    exec σ [L_SetCallBack 0%nat "S2" 5%nat;
            L_Process_enter 1%nat "S2" [] true;
            L_Process 1%nat "S2" (Calling 5%nat) false;
            L_ClearCallBack 0%nat "S2" Blocked;
            L_Process 1%nat "S2" Returned true;
            L_ClearCallBack 0%nat "S2" Returned;
            L_DisableProcessing 0%nat] σ') as [σ' Hex].
  { eexists. unfold σ. run_trace. }
  exists σ'. split; [exact Hex|].
  apply (C8_cleared_is_monotone σ _ σ' "S1" Hex).
  - repeat constructor.
  - apply (bool_decide_unpack _). vm_compute. exact I.
Defined.

(** ** The in-flight counter counts the callbacks being executed *)

Lemma in_flight_insert_fresh t st (T : gmap thread_id (list Frame)) :
  T !! t = None →
  in_flight (<[t := st]> T) = (callbacks_in st + in_flight T)%nat.
Proof.
  intros Hnone. unfold in_flight.
  apply (map_fold_insert_L (λ _ st n, (callbacks_in st + n)%nat)); [|done].
  intros; lia.
Qed.

Lemma in_flight_insert t st (T : gmap thread_id (list Frame)) :
  (in_flight (<[t := st]> T) + callbacks_in (stack_of t T))%nat
  = (in_flight T + callbacks_in st)%nat.
Proof.
  unfold stack_of. destruct (T !! t) as [old|] eqn:Ht; simpl.
  - rewrite <- (insert_delete_eq T t st).
    rewrite <- (insert_delete_id T t old) at 2 by done.
    rewrite !in_flight_insert_fresh by apply lookup_delete_eq. lia.
  - rewrite in_flight_insert_fresh by done. lia.
Qed.

Lemma in_flight_zero t (T : gmap thread_id (list Frame)) :
  in_flight T = 0%nat → callbacks_in (stack_of t T) = 0%nat.
Proof.
  intros Hz. pose proof (in_flight_insert t [] T) as H. simpl in H. lia.
Qed.

Lemma callbacks_in_zero st f :
  callbacks_in st = 0%nat → f ∈ st → is_callback f = false.
Proof.
  induction st as [|g st IH]; simpl; intros Hz Hin.
  - by apply elem_of_nil in Hin.
  - apply elem_of_cons in Hin as [->|Hin].
    + destruct (is_callback g); [lia|done].
    + apply IH; [lia|done].
Qed.

Lemma callbacks_in_after_removal W o st :
  is_callback W = false → callbacks_in (after_removal W o st) = callbacks_in st.
Proof. intros HW. unfold after_removal. destruct o; simpl; by rewrite ?HW. Qed.

Lemma Process_loop_counter point s :
  let r := Process_loop point s in
  num_callbacks_running_ (state r)
  = num_callbacks_running_ s + match outcome r with Calling _ => 1 | _ => 0 end.
Proof.
  unfold Process_loop, PredecessorsAllCleared, Process_fire. simpl.
  destruct (all_cleared _ _); simpl; [|lia].
  destruct (callbacks_ s !! point); simpl; lia.
Qed.

Lemma Process_locked_counter point tid s :
  let r := Process_locked point tid s in
  num_callbacks_running_ (state r)
  = num_callbacks_running_ s + match outcome r with Calling _ => 1 | _ => 0 end.
Proof.
  simpl. unfold Process_locked.
  destruct (mark_successors_frame point tid s) as (_&Hn&_).
  destruct (DisabledByMarker _ _ _); simpl; [lia|].
  rewrite Process_loop_counter. lia.
Qed.

Lemma Process_wake_counter point tid s :
  let r := Process_wake point tid s in
  num_callbacks_running_ (state r)
  = num_callbacks_running_ s + match outcome r with Calling _ => 1 | _ => 0 end.
Proof.
  simpl. unfold Process_wake.
  destruct (DisabledByMarker _ _ _); simpl; [lia|].
  apply Process_loop_counter.
Qed.

Lemma callbacks_in_after_Process point args o rest :
  Z.of_nat (callbacks_in (after_Process point args o rest))
  = Z.of_nat (callbacks_in rest) + match o with Calling _ => 1 | _ => 0 end.
Proof. destruct o; simpl; lia. Qed.

(** Relates the count over all threads before and after the step of the
    thread whose new stack is in the goal. *)
Ltac count_threads :=
  match goal with
  | |- context [in_flight (<[?t := ?st]> ?T)] =>
      pose proof (in_flight_insert t st T) as Hcount;
      repeat match goal with
             | Hst : stack_of t T = _ |- _ => rewrite Hst in Hcount
             end;
      rewrite ?callbacks_in_after_removal in Hcount by done;
      simpl in Hcount
  end.

Lemma step_counter_ok σ l σ' : step σ l σ' → counter_ok σ → counter_ok σ'.
Proof.
  unfold counter_ok. intros Hstep Hok. step_cases Hstep; try done.
  - by destruct (load_untouched dependencies markers s) as (_&->&_).
  - destruct (ClearCallBack_frame point s) as (_&->&_). count_threads. lia.
  - destruct (ClearCallBack_frame point s) as (_&->&_). count_threads. lia.
  - destruct (ClearAllCallBacks_frame s) as (_&->&_). count_threads. lia.
  - destruct (ClearAllCallBacks_frame s) as (_&->&_). count_threads. lia.
  - count_threads. lia.
  - rewrite Process_locked_counter. count_threads.
    pose proof (callbacks_in_after_Process point args
      (outcome (Process_locked point t s)) rest). lia.
  - rewrite Process_wake_counter. count_threads.
    pose proof (callbacks_in_after_Process point args
      (outcome (Process_wake point t s)) rest). lia.
  - count_threads. simpl. lia.
Qed.

Lemma exec_counter_ok σ0 tr σ : exec σ0 tr σ → counter_ok σ0 → counter_ok σ.
Proof.
  induction 1 as [|tr σ1 l σ2 _ IH Hstep]; intros Hok; [done|].
  eapply step_counter_ok; [done|]. by apply IH.
Qed.

Lemma initial_counter_ok : counter_ok initial.
Proof. reflexivity. Qed.

Lemma Process_loop_calling point s cb :
  outcome (Process_loop point s) = Calling cb → callbacks_ s !! point = Some cb.
Proof.
  unfold Process_loop, PredecessorsAllCleared, Process_fire. simpl.
  destruct (all_cleared _ _); simpl; [|done].
  destruct (callbacks_ s !! point); simpl; [|done]. congruence.
Qed.

Lemma Process_locked_calling point tid s cb :
  outcome (Process_locked point tid s) = Calling cb → callbacks_ s !! point = Some cb.
Proof.
  unfold Process_locked.
  destruct (mark_successors_frame point tid s) as (_&_&_&_&Hcb&_).
  destruct (DisabledByMarker _ _ _); simpl; [done|].
  intros H. apply Process_loop_calling in H. by rewrite Hcb in H.
Qed.

Lemma Process_wake_calling point tid s cb :
  outcome (Process_wake point tid s) = Calling cb → callbacks_ s !! point = Some cb.
Proof.
  unfold Process_wake. destruct (DisabledByMarker _ _ _); simpl; [done|].
  apply Process_loop_calling.
Qed.

(** C6: a removal ([ClearCallBack], [ClearAllCallBacks]) never changes the
    callback registry while the in-flight counter is non-zero.  In every
    reachable state, a removal step taken while the counter is non-zero parks
    the caller and leaves the coordinator as it is; a removal step that goes
    through to the erase finds the counter at zero and no thread inside a
    callback, and leaves the registry without the entry (without any entry,
    for [ClearAllCallBacks]); a callback that is called is the one registered
    for the point at that moment, so none is called once cleared; and
    [SetCallBack] is a step any calling thread can take at once, whatever the
    counter, after which the registry holds the new callback. *)
Theorem C6_removal_waits_for_callbacks tr σ l σ' :
  exec initial tr σ →
  step σ l σ' →
  (∀ o, removal_outcome l = Some o →
     (num_callbacks_running_ (impl σ) ≠ 0 → o = Blocked ∧ impl σ' = impl σ) ∧
     (o ≠ Blocked →
        o = Returned ∧ num_callbacks_running_ (impl σ) = 0 ∧
        ∀ t f, f ∈ stack_of t (threads σ) → is_callback f = false)) ∧
  (∀ t p, l = L_ClearCallBack t p Returned → callbacks_ (impl σ') !! p = None) ∧
  (∀ t, l = L_ClearAllCallBacks t Returned → callbacks_ (impl σ') = ∅) ∧
  (∀ t p cb n, l = L_Process t p (Calling cb) n → callbacks_ (impl σ) !! p = Some cb) ∧
  (∀ t p cb, can_call (stack_of t (threads σ)) = true →
     step σ (L_SetCallBack t p cb) (mkSystem (SetCallBack p cb (impl σ)) (threads σ)) ∧
     callbacks_ (SetCallBack p cb (impl σ)) !! p = Some cb).
Proof.
  intros Hex Hstep.
  pose proof (exec_counter_ok _ _ _ Hex initial_counter_ok) as Hok.
  unfold counter_ok in Hok.
  assert (Hidle : num_callbacks_running_ (impl σ) = 0 →
                  ∀ t f, f ∈ stack_of t (threads σ) → is_callback f = false).
  { intros Hz t f Hf. eapply callbacks_in_zero; [|done].
    apply in_flight_zero. lia. }
  split_and!.
  - intros o Ho. step_cases Hstep; try done; injection Ho as <-.
    1-2: unfold ClearCallBack in *; case_bool_decide; simpl;
         (split; [intros ?; first [done|lia] | intros ?; first [done|split_and!; [done|lia|apply Hidle; lia]]]).
    1-2: unfold ClearAllCallBacks in *; case_bool_decide; simpl;
         (split; [intros ?; first [done|lia] | intros ?; first [done|split_and!; [done|lia|apply Hidle; lia]]]).
  - intros t p ->. inversion Hstep as
      [ | | | | | ? ? ? ? ? ? ? _ Hr | ? ? ? ? ? ? ? ? _ Hr | | | | | | | ]; subst; simpl;
      unfold ClearCallBack in Hr; case_bool_decide; inversion Hr; subst; simpl;
      apply lookup_delete_eq.
  - intros t ->. inversion Hstep as
      [ | | | | | | | ? ? ? ? ? ? _ Hr | ? ? ? ? ? ? ? _ Hr | | | | | ]; subst; simpl;
      unfold ClearAllCallBacks in Hr; case_bool_decide; by inversion Hr.
  - intros t p cb n ->. inversion Hstep as
      [ | | | | | | | | | | | ? ? ? ? ? ? ? ? ? _ Hr | ? ? ? ? ? ? ? ? ? _ Hr
      | ? ? ? ? ? ? ? ? ? ? _ Hr ]; subst; simpl.
    + apply (Process_locked_calling p t). by rewrite Hr.
    + apply (Process_wake_calling p t). by rewrite Hr.
    + by inversion Hr.
  - intros t p cb Hcan. destruct σ as [s T]. simpl in *. split.
    + by apply step_SetCallBack.
    + apply lookup_insert_eq.
Qed.

Lemma C6_removal_waits_for_callbacks_witness :
  ∃ σ σ',
    exec initial [L_SetCallBack 0%nat "SyncPointTest::Step:6" 1%nat;
                  L_EnableProcessing 0%nat;
                  L_Process_enter 1%nat "SyncPointTest::Step:6" [] true;
                  L_Process 1%nat "SyncPointTest::Step:6" (Calling 1%nat) false] σ ∧
    step σ (L_ClearAllCallBacks 0%nat Blocked) σ' ∧
    num_callbacks_running_ (impl σ) = 1 ∧
    impl σ' = impl σ.
Proof.
  assert (∃ σ,
    exec initial [L_SetCallBack 0%nat "SyncPointTest::Step:6" 1%nat;
                  L_EnableProcessing 0%nat;
                  L_Process_enter 1%nat "SyncPointTest::Step:6" [] true;
                  L_Process 1%nat "SyncPointTest::Step:6" (Calling 1%nat) false] σ ∧
    num_callbacks_running_ (impl σ) = 1 ∧
    ∃ σ', step σ (L_ClearAllCallBacks 0%nat Blocked) σ')
    as (σ & Hex & Hnum & σ' & Hstep).
  { eexists. split; [|split].
    - unfold initial. run_trace.
    - by_computing.
    - eexists. eapply step_ClearAllCallBacks; by_computing. }
  exists σ, σ'. split_and!; [done..|].
  destruct (C6_removal_waits_for_callbacks _ σ _ σ' Hex Hstep) as (Hrem & _).
  destruct (Hrem Blocked eq_refl) as (Hkeep & _).
  apply Hkeep. rewrite Hnum. lia.
Defined.

(** ** Ordering along an execution *)

Lemma all_cleared_true cleared preds :
  all_cleared cleared preds = true ↔ ∀ a, a ∈ preds → a ∈ cleared.
Proof.
  induction preds as [|b preds IH]; simpl.
  - split; [|done]. intros _ a Ha. by apply elem_of_nil in Ha.
  - case_bool_decide as Hb.
    + rewrite IH. split.
      * intros Hall a Ha. apply elem_of_cons in Ha as [->|Ha]; [done|by apply Hall].
      * intros Hall a Ha. apply Hall. by apply list_elem_of_further.
    + split; [done|]. intros Hall. destruct Hb. apply Hall, list_elem_of_here.
Qed.

Lemma Process_loop_passed point s :
  passed (Process_loop point s) →
  ∀ a, a ∈ at_or_empty point (predecessors_ s) → a ∈ cleared_points_ s.
Proof.
  unfold passed, Process_loop, PredecessorsAllCleared. simpl.
  destruct (all_cleared _ _) eqn:Hall; simpl.
  - intros _. by apply all_cleared_true.
  - intros [?|[cb ?]]; done.
Qed.

Lemma Process_locked_passed point tid s :
  passed (Process_locked point tid s) →
  ∀ a, a ∈ at_or_empty point (predecessors_ s) → a ∈ cleared_points_ s.
Proof.
  unfold Process_locked.
  destruct (mark_successors_frame point tid s) as (_&_&_&Hp&_&_&Hc).
  destruct (DisabledByMarker _ _ _).
  - intros [?|[cb ?]]; done.
  - intros Hpass. rewrite <- Hp, <- Hc. by apply Process_loop_passed.
Qed.

Lemma Process_wake_passed point tid s :
  passed (Process_wake point tid s) →
  ∀ a, a ∈ at_or_empty point (predecessors_ s) → a ∈ cleared_points_ s.
Proof.
  unfold Process_wake. destruct (DisabledByMarker _ _ _).
  - intros [?|[cb ?]]; done.
  - apply Process_loop_passed.
Qed.

Lemma Process_locked_preds point tid s q :
  at_or_empty q (predecessors_ (state (Process_locked point tid s)))
  = at_or_empty q (predecessors_ s).
Proof.
  unfold Process_locked.
  destruct (mark_successors_frame point tid s) as (_&_&_&Hp&_).
  destruct (DisabledByMarker _ _ _); simpl; [by rewrite Hp|].
  destruct (Process_loop_frame point (mark_successors point tid s)) as (_&_&_&_&_&->).
  by rewrite at_or_empty_touch, Hp.
Qed.

Lemma Process_wake_preds point tid s q :
  at_or_empty q (predecessors_ (state (Process_wake point tid s)))
  = at_or_empty q (predecessors_ s).
Proof.
  unfold Process_wake. destruct (DisabledByMarker _ _ _); simpl; [done|].
  destruct (Process_loop_frame point s) as (_&_&_&_&_&->).
  by rewrite at_or_empty_touch.
Qed.

Lemma stack_of_insert t t' st (T : gmap thread_id (list Frame)) :
  stack_of t' (<[t := st]> T) = if decide (t = t') then st else stack_of t' T.
Proof.
  unfold stack_of. case_decide as Ht.
  - subst. by rewrite lookup_insert_eq.
  - by rewrite lookup_insert_ne.
Qed.

Lemma fired_snoc tr l p : fired (tr ++ [l]) p ↔ fired tr p ∨ clears p l = true.
Proof.
  unfold fired. split.
  - intros (l' & Hin & Hc). apply elem_of_app in Hin as [Hin|Hin].
    + left. by exists l'.
    + apply list_elem_of_singleton in Hin as ->. by right.
  - intros [(l' & Hin & Hc)|Hc].
    + exists l'. split; [|done]. apply elem_of_app. by left.
    + exists l. split; [|done]. apply elem_of_app. right. apply list_elem_of_here.
Qed.


(** The shape every step has with respect to [ordered]. *)
Lemma ordered_extend es tr σ l σ' :
  ordered es tr σ →
  (∀ p, at_or_empty p (predecessors_ (impl σ')) = at_or_empty p (predecessors_ (impl σ))) →
  (∀ p, p ∈ cleared_points_ (impl σ') → p ∈ cleared_points_ (impl σ) ∨ clears p l = true) →
  (∀ p, clears p l = true → ∀ a, edge es a p → fired tr a) →
  (∀ t p cb args,
     InProcess_callback p cb args ∈ stack_of t (threads σ') →
     (∃ t', InProcess_callback p cb args ∈ stack_of t' (threads σ)) ∨
     (∀ a, edge es a p → fired tr a)) →
  ordered es (tr ++ [l]) σ'.
Proof.
  intros [Hp Hc Hcl Hr] Hpreds Hcleared Hclears Hrun. split.
  - intros p. by rewrite Hpreds.
  - intros p Hin. apply fired_snoc. destruct (Hcleared p Hin); [left; by apply Hc|by right].
  - intros a p Hf Hedge. apply fired_snoc. left.
    apply fired_snoc in Hf as [Hf|Hf]; [by eapply Hcl|by eapply Hclears].
  - intros t p cb args a Hin Hedge. apply fired_snoc. left.
    destruct (Hrun t p cb args Hin) as [[t' Hin']|Hall]; [by eapply Hr|by apply Hall].
Qed.

Lemma callback_in_after_Process point args o rest p cb args' :
  InProcess_callback p cb args' ∈ after_Process point args o rest →
  InProcess_callback p cb args' ∈ rest ∨ (p = point ∧ o = Calling cb).
Proof.
  unfold after_Process. destruct o; [by left| |]; intros Hin;
    apply elem_of_cons in Hin as [Heq|Hin]; try by left.
  injection Heq as -> -> ->. by right.
Qed.

Lemma callback_in_after_removal W o rest p cb args :
  is_callback W = false →
  InProcess_callback p cb args ∈ after_removal W o rest →
  InProcess_callback p cb args ∈ rest.
Proof.
  unfold after_removal. intros HW. destruct o; try done.
  intros Hin. apply elem_of_cons in Hin as [<-|Hin]; [done|done].
Qed.

(** Frames of the stepping thread that were below its top frame before the
    step were frames of that thread. *)
Ltac old_frame t :=
  left; exists t;
  match goal with
  | Hst : stack_of t _ = _ :: _ |- _ => rewrite Hst; by apply list_elem_of_further
  | _ => done
  end.

Ltac same_cleared := intros ? ?; by left.
Ltac same_threads := let t0 := fresh "t" in intros t0 ? ? ? ?; left; by exists t0.
Ltac no_clearing := let Hc := fresh in intros ? Hc; discriminate Hc.
Ltac own_threads t :=
  let t0 := fresh "t" in
  let Hin := fresh in
  intros t0 ? ? ?; rewrite stack_of_insert; case_decide;
  [ subst t0; intros Hin;
    first [ apply callback_in_after_removal in Hin; [|done]
          | apply elem_of_cons in Hin as [Hin|Hin]; [discriminate Hin|]
          | idtac ];
    old_frame t
  | intros Hin; left; by exists t0 ].

Lemma step_ordered es tr σ l σ' :
  step σ l σ' → is_reload l = false → ordered es tr σ → ordered es (tr ++ [l]) σ'.
Proof.
  intros Hstep Hl Hord. step_cases Hstep; try done.
  (* EnableProcessing, DisableProcessing, SetCallBack *)
  - apply (ordered_extend _ _ _ _ _ Hord); simpl;
      [done | same_cleared | no_clearing | same_threads].
  - apply (ordered_extend _ _ _ _ _ Hord); simpl;
      [done | same_cleared | no_clearing | same_threads].
  - apply (ordered_extend _ _ _ _ _ Hord); simpl;
      [done | same_cleared | no_clearing | same_threads].
  (* ClearTrace *)
  - apply (ordered_extend _ _ _ _ _ Hord); simpl;
      [done | | no_clearing | same_threads].
    intros p Hp. by apply elem_of_empty in Hp.
  (* ClearCallBack, first test and after a wait *)
  - destruct (ClearCallBack_frame point s) as (_&_&_&Hp&_&_&Hc).
    apply (ordered_extend _ _ _ _ _ Hord); simpl;
      [ intros p; by rewrite Hp | rewrite Hc; same_cleared | no_clearing
      | own_threads t ].
  - destruct (ClearCallBack_frame point s) as (_&_&_&Hp&_&_&Hc).
    apply (ordered_extend _ _ _ _ _ Hord); simpl;
      [ intros p; by rewrite Hp | rewrite Hc; same_cleared | no_clearing
      | own_threads t ].
  (* ClearAllCallBacks, first test and after a wait *)
  - destruct (ClearAllCallBacks_frame s) as (_&_&_&Hp&_&_&Hc).
    apply (ordered_extend _ _ _ _ _ Hord); simpl;
      [ intros p; by rewrite Hp | rewrite Hc; same_cleared | no_clearing
      | own_threads t ].
  - destruct (ClearAllCallBacks_frame s) as (_&_&_&Hp&_&_&Hc).
    apply (ordered_extend _ _ _ _ _ Hord); simpl;
      [ intros p; by rewrite Hp | rewrite Hc; same_cleared | no_clearing
      | own_threads t ].
  (* Process: [enabled_] read as false, as true *)
  - apply (ordered_extend _ _ _ _ _ Hord); simpl;
      [done | same_cleared | no_clearing | same_threads].
  - apply (ordered_extend _ _ _ _ _ Hord); simpl;
      [done | same_cleared | no_clearing | own_threads t].
  (* Process: the piece under the lock *)
  - assert (Hpass : passed (Process_locked point t s) →
                    ∀ a, edge es a point → fired tr a).
    { intros Hpass a Ha. apply (ord_cleared _ _ _ Hord). simpl.
      apply (Process_locked_passed _ _ _ Hpass).
      rewrite (ord_preds _ _ _ Hord). by apply elem_of_preds_in. }
    apply (ordered_extend _ _ _ _ _ Hord); simpl.
    + intros p. apply Process_locked_preds.
    + intros p. rewrite Process_locked_cleared.
      destruct (notify_all _) eqn:Hn; [|intros ?; by left].
      intros Hp. apply elem_of_union in Hp as [Hp|Hp]; [|by left].
      apply elem_of_singleton in Hp as ->. right. by rewrite bool_decide_eq_true_2.
    + intros p Hc. apply andb_true_iff in Hc as [Hq Hn].
      apply bool_decide_eq_true in Hq as <-. apply Hpass. by left.
    + intros t0 p cb0 args0. rewrite stack_of_insert. case_decide.
      * subst t0. intros Hin. apply callback_in_after_Process in Hin as [Hin|[-> Ho]].
        -- old_frame t.
        -- right. apply Hpass. right. by exists cb0.
      * intros Hin. left. by exists t0.
  (* Process: back from the wait *)
  - assert (Hpass : passed (Process_wake point t s) →
                    ∀ a, edge es a point → fired tr a).
    { intros Hpass a Ha. apply (ord_cleared _ _ _ Hord). simpl.
      apply (Process_wake_passed _ _ _ Hpass).
      rewrite (ord_preds _ _ _ Hord). by apply elem_of_preds_in. }
    apply (ordered_extend _ _ _ _ _ Hord); simpl.
    + intros p. apply Process_wake_preds.
    + intros p. rewrite Process_wake_cleared.
      destruct (notify_all _) eqn:Hn; [|intros ?; by left].
      intros Hp. apply elem_of_union in Hp as [Hp|Hp]; [|by left].
      apply elem_of_singleton in Hp as ->. right. by rewrite bool_decide_eq_true_2.
    + intros p Hc. apply andb_true_iff in Hc as [Hq Hn].
      apply bool_decide_eq_true in Hq as <-. apply Hpass. by left.
    + intros t0 p cb0 args0. rewrite stack_of_insert. case_decide.
      * subst t0. intros Hin. apply callback_in_after_Process in Hin as [Hin|[-> Ho]].
        -- old_frame t.
        -- right. apply Hpass. right. by exists cb0.
      * intros Hin. left. by exists t0.
  (* Process: back from the callback *)
  - assert (Hpreds : ∀ a, edge es a point → fired tr a).
    { intros a Ha. apply (ord_running _ _ _ Hord t point cb args a); [|done].
      simpl. match goal with Hst : stack_of t T = _ |- _ => rewrite Hst end.
      apply list_elem_of_here. }
    apply (ordered_extend _ _ _ _ _ Hord); simpl.
    + done.
    + intros p Hp. apply elem_of_union in Hp as [Hp|Hp]; [|by left].
      apply elem_of_singleton in Hp as ->. right. by rewrite bool_decide_eq_true_2.
    + intros p Hc. apply andb_true_iff in Hc as [Hq Hn].
      by apply bool_decide_eq_true in Hq as <-.
    + intros t0 p cb0 args0. rewrite stack_of_insert. case_decide.
      * subst t0. intros Hin. old_frame t.
      * intros Hin. left. by exists t0.
Qed.

Lemma exec_ordered es σ0 tr σ :
  exec σ0 tr σ → Forall (λ l, is_reload l = false) tr →
  ordered es [] σ0 → ordered es tr σ.
Proof.
  induction 1 as [|tr σ1 l σ2 _ IH Hstep]; intros Hall Hord; [done|].
  apply Forall_app in Hall as [Hall Hl]. rewrite Forall_singleton in Hl.
  apply (step_ordered _ _ σ1); [done..|]. by apply IH.
Qed.

(** Right after a reload, with no thread inside a callback. *)
Lemma loaded_ordered dependencies markers s T :
  (∀ t f, f ∈ stack_of t T → is_callback f = false) →
  ordered (dependencies ++ markers) []
          (mkSystem (LoadDependencyAndMarkers dependencies markers s) T).
Proof.
  intros Hidle. split; simpl.
  - intros p. by destruct (load_indices dependencies markers s p) as (_&->&_).
  - intros p. destruct (load_untouched dependencies markers s) as (_&_&_&_&->).
    intros Hp. by apply elem_of_empty in Hp.
  - intros a p (l & Hl & _). by apply elem_of_nil in Hl.
  - intros t p cb args a Hin. by apply Hidle in Hin.
Qed.

Lemma tc_last {A} (R : relation A) x z : tc R x z → ∃ y, rtc R x y ∧ R y z.
Proof.
  induction 1 as [x z Hxz|x x' z Hxx' _ (y & Hrtc & Hyz)].
  - exists x. split; [constructor|done].
  - exists y. split; [|done]. by eapply rtc_l.
Qed.

(** A step that calls the callback of [B] or clears [B] comes after a step
    that cleared each direct predecessor of [B]. *)
Lemma step_after_predecessors es tr σ l σ' B :
  ordered es tr σ → step σ l σ' →
  invokes B l = true ∨ clears B l = true →
  ∀ a, edge es a B → fired tr a.
Proof.
  intros Hord Hstep Hfire a Ha.
  assert (∃ t o n, l = L_Process t B o n ∧
            (n = true ∨ ∃ cb, o = Calling cb)) as (t & o & n & -> & Hon).
  { destruct l; simpl in Hfire; try by destruct Hfire.
    exists t, o, notified.
    destruct Hfire as [H|H]; apply andb_true_iff in H as [Hq H];
      apply bool_decide_eq_true in Hq as ->; (split; [done|]).
    - right. destruct o; try done. by eexists.
    - by left. }
  assert (Hin : a ∈ at_or_empty B (predecessors_ (impl σ))).
  { rewrite (ord_preds _ _ _ Hord). by apply elem_of_preds_in. }
  inversion Hstep as
    [ | | | | | | | | | | | ? ? ? ? ? ? ? ? ? Hst Hr | ? ? ? ? ? ? ? ? ? Hst Hr
    | ? ? ? ? ? ? ? ? ? ? Hst Hr ]; subst; simpl in *.
  - apply (ord_cleared _ _ _ Hord). simpl.
    apply (Process_locked_passed B t s); [|done].
    unfold passed. rewrite Hr. simpl. done.
  - apply (ord_cleared _ _ _ Hord). simpl.
    apply (Process_wake_passed B t s); [|done].
    unfold passed. rewrite Hr. simpl. done.
  - apply (ord_running _ _ _ Hord t B cb args a); [|done].
    simpl. rewrite Hst. apply list_elem_of_here.
Qed.

Lemma fired_ancestors es tr σ A B :
  ordered es tr σ → rtc (edge es) A B → fired tr B → fired tr A.
Proof.
  intros Hord Hrtc. induction Hrtc as [|A A' B Hedge _ IH]; [done|].
  intros HB. apply (ord_closed _ _ _ Hord A A'); [by apply IH|done].
Qed.

Lemma fires_after_dependencies es σ0 tr σ A B tr1 l tr2 :
  ordered es [] σ0 →
  exec σ0 tr σ →
  Forall (λ l, is_reload l = false) tr →
  depends es A B →
  tr = tr1 ++ l :: tr2 →
  invokes B l = true ∨ clears B l = true →
  fired tr1 A.
Proof.
  intros Hord0 Hex Hall Hdep -> Hfire.
  apply exec_split in Hex as (σ1 & σ2 & Hex1 & Hstep & _).
  apply Forall_app in Hall as [Hall1 _].
  pose proof (exec_ordered _ _ _ _ Hex1 Hall1 Hord0) as Hord.
  apply tc_last in Hdep as (C & Hrtc & Hedge).
  apply (fired_ancestors es tr1 σ1 A C); [done..|].
  by apply (step_after_predecessors es tr1 σ1 l σ2 B).
Qed.

(** ** Firing points one after the other from a single thread *)













(** ** The scenarios of the test suite, as executions *)

(** [SyncPointTest.Dependency]: the main thread (0) fires Step:6, thread 1
    fires Step:4 then Step:5, thread 2 fires Step:2 then Step:3, thread 3 fires
    Step:1.  However early the others arrive, the points clear in the order
    1, 2, 3, 4, 5, 6 and the callback of Step:6 runs last. *)
Example test_Dependency :
  ∃ σ,
    exec initial
      [L_LoadDependencyAndMarkers 0%nat
         [mkPair "Step:1" "Step:2"; mkPair "Step:3" "Step:4"; mkPair "Step:5" "Step:6"] [];
       L_SetCallBack 0%nat "Step:6" 1%nat;
       L_EnableProcessing 0%nat;
       L_Process_enter 0%nat "Step:6" [] true;
       L_Process 0%nat "Step:6" Blocked false;
       L_Process_enter 1%nat "Step:4" [] true;
       L_Process 1%nat "Step:4" Blocked false;
       L_Process_enter 2%nat "Step:2" [] true;
       L_Process 2%nat "Step:2" Blocked false;
       L_Process_enter 3%nat "Step:1" [] true;
       L_Process 3%nat "Step:1" Returned true;
       L_Process 1%nat "Step:4" Blocked false;
       L_Process 2%nat "Step:2" Returned true;
       L_Process_enter 2%nat "Step:3" [] true;
       L_Process 2%nat "Step:3" Returned true;
       L_Process 1%nat "Step:4" Returned true;
       L_Process_enter 1%nat "Step:5" [] true;
       L_Process 1%nat "Step:5" Returned true;
       L_Process 0%nat "Step:6" (Calling 1%nat) false;
       L_Process 0%nat "Step:6" Returned true] σ ∧
    cleared_points_ (impl σ)
      = {["Step:1"; "Step:2"; "Step:3"; "Step:4"; "Step:5"; "Step:6"]} ∧
    num_callbacks_running_ (impl σ) = 0.
Proof.
  eexists. split; [unfold initial; run_trace|]. split; by_computing.
Qed.

(** [SyncPointTest.DependencyAndMark2], in the order the test describes:
    thread 2 fires the marker first, so the firing of MarkedPoint by thread 1
    is suppressed and only thread 2 runs the callback. *)
Example test_DependencyAndMark2 :
  ∃ σ,
    exec initial
      [L_SetCallBack 0%nat "MarkedPoint" 1%nat;
       L_LoadDependencyAndMarkers 0%nat
         [mkPair "Thread1First" "MarkedPoint"] [mkPair "Marker" "MarkedPoint"];
       L_EnableProcessing 0%nat;
       L_Process_enter 2%nat "Marker" [] true;
       L_Process 2%nat "Marker" Returned true;
       L_Process_enter 1%nat "MarkedPoint" [0] true;
       L_Process 1%nat "MarkedPoint" Returned false;
       L_Process_enter 1%nat "Thread1First" [] true;
       L_Process 1%nat "Thread1First" Returned true;
       L_Process_enter 2%nat "MarkedPoint" [0] true;
       L_Process 2%nat "MarkedPoint" (Calling 1%nat) false;
       L_Process 2%nat "MarkedPoint" Returned true] σ.
Proof. eexists. unfold initial. run_trace. Qed.

(** The same test when thread 1 arrives first: it parks at MarkedPoint, and
    the test of line 101 sends it back once thread 2 has fired the marker. *)
Example test_DependencyAndMark2_thread1_first :
  ∃ σ,
    exec initial
      [L_SetCallBack 0%nat "MarkedPoint" 1%nat;
       L_LoadDependencyAndMarkers 0%nat
         [mkPair "Thread1First" "MarkedPoint"] [mkPair "Marker" "MarkedPoint"];
       L_EnableProcessing 0%nat;
       L_Process_enter 1%nat "MarkedPoint" [0] true;
       L_Process 1%nat "MarkedPoint" Blocked false;
       L_Process_enter 2%nat "Marker" [] true;
       L_Process 2%nat "Marker" Returned true;
       L_Process 1%nat "MarkedPoint" Returned false;
       L_Process_enter 1%nat "Thread1First" [] true;
       L_Process 1%nat "Thread1First" Returned true;
       L_Process_enter 2%nat "MarkedPoint" [0] true;
       L_Process 2%nat "MarkedPoint" (Calling 1%nat) false;
       L_Process 2%nat "MarkedPoint" Returned true] σ.
Proof. eexists. unfold initial. run_trace. Qed.

(** * Further properties of the code *)

(** ** One call of [Process], seen from the caller *)

Lemma all_cleared_false cleared preds :
  all_cleared cleared preds = false ↔ ∃ a, a ∈ preds ∧ a ∉ cleared.
Proof.
  induction preds as [|b preds IH]; simpl.
  - split; [done|]. intros (a & Ha & _). by apply elem_of_nil in Ha.
  - case_bool_decide as Hb.
    + rewrite IH. split.
      * intros (a & Ha & Hn). exists a. split; [by apply list_elem_of_further|done].
      * intros (a & Ha & Hn). exists a. split; [|done].
        apply elem_of_cons in Ha as [->|Ha]; done.
    + split; [|done]. intros _. exists b. split; [apply list_elem_of_here|done].
Qed.

(** The caller is not held back by a marker: the point has no record, or the
    record is the caller's. *)
Lemma own_record_not_disabled point tid s :
  (∀ v, marked_thread_id_ s !! point = Some v → v = tid) →
  DisabledByMarker point tid (mark_successors point tid s) = false.
Proof.
  intros Hown. unfold DisabledByMarker. rewrite mark_successors_lookup.
  destruct (marked_thread_id_ s !! point) as [v|] eqn:Hv.
  - rewrite (Hown v eq_refl). by rewrite bool_decide_eq_false_2 by (intros ?; done).
  - case_decide; [|done]. by rewrite bool_decide_eq_false_2 by (intros ?; done).
Qed.

Lemma Process_unsuppressed point args tid s :
  enabled_ s = true →
  (∀ v, marked_thread_id_ s !! point = Some v → v = tid) →
  Process point args tid s = Process_loop point (mark_successors point tid s).
Proof.
  intros Hon Hown. unfold Process, Process_locked. rewrite Hon. simpl.
  by rewrite own_record_not_disabled.
Qed.

Lemma Process_loop_outcome point s :
  Process_loop point s
  = if all_cleared (cleared_points_ s) (at_or_empty point (predecessors_ s))
    then Process_fire point (set_predecessors (touch point (predecessors_ s)) s)
    else mkResult (set_predecessors (touch point (predecessors_ s)) s) Blocked false.
Proof. unfold Process_loop, PredecessorsAllCleared. by destruct (all_cleared _ _). Qed.

Lemma Process_calling point args tid s cb :
  outcome (Process point args tid s) = Calling cb → callbacks_ s !! point = Some cb.
Proof.
  unfold Process. destruct (enabled_ s); simpl; [|done].
  apply Process_locked_calling.
Qed.

Lemma Process_parks_when s point args tid pred :
  enabled_ s = true →
  (∀ v, marked_thread_id_ s !! point = Some v → v = tid) →
  pred ∈ at_or_empty point (predecessors_ s) → pred ∉ cleared_points_ s →
  outcome (Process point args tid s) = Blocked.
Proof.
  intros Hon Hown Hin Hnot. rewrite Process_unsuppressed, Process_loop_outcome by done.
  destruct (mark_successors_frame point tid s) as (_&_&_&Hp&_&_&Hc).
  rewrite Hp, Hc. by rewrite (proj2 (all_cleared_false _ _)) by by exists pred.
Qed.

(** X1: a call of [Process] that is neither switched off nor suppressed parks
    exactly when some predecessor of the point is not in the cleared-points
    set; a call that parks has cleared nothing, notified nobody and left the
    counter alone. *)
Theorem X1_parks_iff_predecessor_uncleared s point args tid :
  enabled_ s = true →
  (∀ v, marked_thread_id_ s !! point = Some v → v = tid) →
  let r := Process point args tid s in
  (outcome r = Blocked ↔
     ∃ pred, pred ∈ at_or_empty point (predecessors_ s) ∧ pred ∉ cleared_points_ s) ∧
  (outcome r = Blocked →
     notify_all r = false ∧
     cleared_points_ (state r) = cleared_points_ s ∧
     callbacks_ (state r) = callbacks_ s ∧
     num_callbacks_running_ (state r) = num_callbacks_running_ s).
Proof.
  intros Hon Hown r. unfold r. rewrite Process_unsuppressed, Process_loop_outcome by done.
  destruct (mark_successors_frame point tid s) as (_&Hn&_&Hp&Hcb&_&Hc).
  rewrite Hp, Hc. rewrite <- all_cleared_false.
  destruct (all_cleared _ _) eqn:Hall.
  - unfold Process_fire. simpl. rewrite Hcb.
    destruct (callbacks_ s !! point); simpl; split; (split || intros ?); done.
  - simpl. split; [done|]. intros _. by rewrite Hn, Hcb, Hc.
Qed.

Lemma X1_parks_iff_predecessor_uncleared_witness :
  outcome (Process "Step:2" [] 2%nat
             (LoadDependencyAndMarkers [mkPair "Step:1" "Step:2"] []
                (EnableProcessing Impl_new)))
  = Blocked.
Proof.
  assert (Hon : enabled_ (LoadDependencyAndMarkers [mkPair "Step:1" "Step:2"] []
                            (EnableProcessing Impl_new)) = true) by by_computing.
  assert (Hown : ∀ v, marked_thread_id_
                        (LoadDependencyAndMarkers [mkPair "Step:1" "Step:2"] []
                           (EnableProcessing Impl_new)) !! "Step:2" = Some v → v = 2%nat).
  { intros v Hv. vm_compute in Hv. discriminate Hv. }
  apply (X1_parks_iff_predecessor_uncleared _ "Step:2" [] 2%nat Hon Hown).
  exists "Step:1". split.
  - apply (bool_decide_unpack _). by_computing.
  - apply (bool_decide_unpack _). by_computing.
Defined.

(** ** Registering and removing callbacks *)

(** X7: with no callback being executed, registering a callback for a point
    that had none and removing it again gives back the very state one started
    from; removing the callback of a point that has none changes nothing.
    Neither removal parks. *)
Theorem X7_set_then_clear_round_trip s point cb :
  num_callbacks_running_ s ≤ 0 →
  callbacks_ s !! point = None →
  ClearCallBack point (SetCallBack point cb s) = mkResult s Returned false ∧
  ClearCallBack point s = mkResult s Returned false.
Proof.
  intros Hnum Hnone. unfold ClearCallBack, SetCallBack. simpl.
  rewrite bool_decide_eq_false_2 by lia.
  rewrite delete_insert_eq, (delete_id _ _ Hnone). by destruct s.
Qed.

Lemma X7_set_then_clear_round_trip_witness :
  ClearCallBack "SyncPointTest::DummySyncPoint"
    (SetCallBack "SyncPointTest::DummySyncPoint" 1%nat Impl_new)
  = mkResult Impl_new Returned false.
Proof.
  apply (X7_set_then_clear_round_trip Impl_new "SyncPointTest::DummySyncPoint" 1%nat).
  - simpl. lia.
  - by_computing.
Defined.

(** X8: [SetCallBack] replaces: a point whose callback was set twice calls
    the second one.  The call that runs a callback counts it in
    [num_callbacks_running_] and does not yet enter the point into the
    cleared-points set nor notify; the point is cleared, the waiters notified
    and the counter restored only when the callback has returned. *)
Theorem X8_latest_callback_runs_before_clearing s point args tid cb1 cb2 :
  enabled_ s = true →
  (∀ v, marked_thread_id_ s !! point = Some v → v = tid) →
  (∀ pred, pred ∈ at_or_empty point (predecessors_ s) → pred ∈ cleared_points_ s) →
  let r := Process point args tid (SetCallBack point cb2 (SetCallBack point cb1 s)) in
  let r' := Process_resume point (state r) in
  (outcome r = Calling cb2 ∧ notify_all r = false ∧
   cleared_points_ (state r) = cleared_points_ s ∧
   num_callbacks_running_ (state r) = num_callbacks_running_ s + 1) ∧
  (outcome r' = Returned ∧ notify_all r' = true ∧
   cleared_points_ (state r') = {[point]} ∪ cleared_points_ s ∧
   num_callbacks_running_ (state r') = num_callbacks_running_ s).
Proof.
  intros Hon Hown Hpreds r r'. unfold r', r.
  set (s2 := SetCallBack point cb2 (SetCallBack point cb1 s)).
  rewrite (Process_unsuppressed point args tid s2) by done.
  rewrite Process_loop_outcome.
  destruct (mark_successors_frame point tid s2) as (_&Hn&_&Hp&Hcb&_&Hc).
  rewrite Hp, Hc. simpl.
  rewrite (proj2 (all_cleared_true _ _) Hpreds).
  unfold Process_fire. simpl. rewrite Hcb. simpl.
  rewrite lookup_insert_eq. simpl. rewrite Hn, Hc. simpl.
  split_and!; try done. lia.
Qed.

Lemma X8_latest_callback_runs_before_clearing_witness :
  outcome (Process "SyncPointTest::DummySyncPoint" [] 0%nat
             (SetCallBack "SyncPointTest::DummySyncPoint" 2%nat
                (SetCallBack "SyncPointTest::DummySyncPoint" 1%nat
                   (EnableProcessing Impl_new))))
  = Calling 2%nat.
Proof.
  apply (X8_latest_callback_runs_before_clearing (EnableProcessing Impl_new)
           "SyncPointTest::DummySyncPoint" [] 0%nat 1%nat 2%nat).
  - by_computing.
  - intros v Hv. vm_compute in Hv. discriminate Hv.
  - intros pred Hpred. vm_compute in Hpred. by apply elem_of_nil in Hpred.
Defined.

(** X9: with no callback being executed, after [ClearAllCallBacks] no point
    calls a callback any more, after [ClearCallBack] the point it names calls
    none, and [ClearCallBack] leaves the callback of every other point as
    registered. *)
Theorem X9_removal_scope s point args tid :
  num_callbacks_running_ s ≤ 0 →
  (∀ p cb, outcome (Process p args tid (state (ClearAllCallBacks s))) ≠ Calling cb) ∧
  (∀ cb, outcome (Process point args tid (state (ClearCallBack point s))) ≠ Calling cb) ∧
  (∀ q, q ≠ point → callbacks_ (state (ClearCallBack point s)) !! q = callbacks_ s !! q).
Proof.
  intros Hnum. unfold ClearAllCallBacks, ClearCallBack.
  rewrite !bool_decide_eq_false_2 by lia. simpl. split_and!.
  - intros p cb Hcall. apply Process_calling in Hcall. simpl in Hcall.
    by rewrite lookup_empty in Hcall.
  - intros cb Hcall. apply Process_calling in Hcall. simpl in Hcall.
    by rewrite lookup_delete_eq in Hcall.
  - intros q Hq. by rewrite lookup_delete_ne.
Qed.

Lemma X9_removal_scope_witness :
  callbacks_ (state (ClearCallBack "Step:5"
                       (SetCallBack "Step:6" 1%nat (SetCallBack "Step:5" 2%nat Impl_new))))
    !! "Step:6"
  = callbacks_ (SetCallBack "Step:6" 1%nat (SetCallBack "Step:5" 2%nat Impl_new))
    !! "Step:6".
Proof.
  apply (X9_removal_scope
           (SetCallBack "Step:6" 1%nat (SetCallBack "Step:5" 2%nat Impl_new))
           "Step:5" [] 0%nat).
  - simpl. lia.
  - discriminate.
Defined.

(** ** The indexed call-site macro *)

(** X11: for one prefix, [TEST_IDX_SYNC_POINT] names a different point for
    every index; so a callback registered under the name of index [i] is
    called by the macro at index [j] only when [i = j], unless the point of
    index [j] had that callback already. *)
Theorem X11_indexed_points_do_not_collide x i j cb tid s :
  (x +:+ to_string i = x +:+ to_string j ↔ i = j) ∧
  (callbacks_ s !! (x +:+ to_string j) = None →
   outcome (TEST_IDX_SYNC_POINT x j tid (SetCallBack (x +:+ to_string i) cb s))
     = Calling cb →
   i = j).
Proof.
  assert (Hinj : x +:+ to_string i = x +:+ to_string j → i = j).
  { intros Heq. apply (inj (String.app x)) in Heq. by apply (inj pretty) in Heq. }
  split; [split; [done|by intros ->]|].
  intros Hnone Hcall. unfold TEST_IDX_SYNC_POINT in Hcall.
  apply Process_calling in Hcall. unfold SetCallBack in Hcall. simpl in Hcall.
  destruct (decide (x +:+ to_string i = x +:+ to_string j)) as [Heq|Hne]; [by apply Hinj|].
  rewrite lookup_insert_ne in Hcall by done. congruence.
Qed.

(** ** What [Process] does to the graph *)

(** X12: the successor index is written by [LoadDependencyAndMarkers] and
    read by nothing: whatever it holds, every piece of [Process] and both
    removals end the same way and make the same changes to the other fields. *)
Theorem X12_successor_index_is_never_read m s point args tid :
  let with_m (r : Result) :=
    mkResult (set_successors m (state r)) (outcome r) (notify_all r) in
  Process point args tid (set_successors m s) = with_m (Process point args tid s) ∧
  Process_wake point tid (set_successors m s) = with_m (Process_wake point tid s) ∧
  Process_resume point (set_successors m s) = with_m (Process_resume point s) ∧
  ClearCallBack point (set_successors m s) = with_m (ClearCallBack point s) ∧
  ClearAllCallBacks (set_successors m s) = with_m (ClearAllCallBacks s).
Proof.
  intros with_m. unfold with_m.
  assert (Hloop : ∀ u, Process_loop point (set_successors m u)
    = mkResult (set_successors m (state (Process_loop point u)))
               (outcome (Process_loop point u)) (notify_all (Process_loop point u))).
  { intros u. rewrite !Process_loop_outcome. simpl.
    destruct (all_cleared _ _); [|done].
    unfold Process_fire. simpl. by destruct (callbacks_ u !! point). }
  assert (Hmark : mark_successors point tid (set_successors m s)
                  = set_successors m (mark_successors point tid s)).
  { unfold mark_successors. simpl. by destruct (markers_ s !! point). }
  split_and!.
  - unfold Process, Process_locked. simpl. destruct (enabled_ s); simpl; [|done].
    rewrite Hmark. unfold DisabledByMarker at 1. simpl.
    fold (DisabledByMarker point tid (mark_successors point tid s)).
    destruct (DisabledByMarker _ _ _); [done|]. apply Hloop.
  - unfold Process_wake. unfold DisabledByMarker at 1. simpl.
    fold (DisabledByMarker point tid s).
    destruct (DisabledByMarker _ _ _); [done|]. apply Hloop.
  - done.
  - unfold ClearCallBack. simpl. by case_bool_decide.
  - unfold ClearAllCallBacks. simpl. by case_bool_decide.
Qed.

(** X14: [Process] never changes a dependency vector.  Reading
    [predecessors_[point]] may leave an empty entry for a point that had none;
    that is the only change to the predecessor index, and the successor and
    marker indices, the callback registry and the enabled flag are not
    touched at all. *)
Theorem X14_Process_only_adds_an_empty_entry s point args tid :
  let s' := state (Process point args tid s) in
  (predecessors_ s' = predecessors_ s ∨
   (predecessors_ s !! point = None ∧
    predecessors_ s' = <[point := []]> (predecessors_ s))) ∧
  (∀ q, at_or_empty q (predecessors_ s') = at_or_empty q (predecessors_ s)) ∧
  successors_ s' = successors_ s ∧ markers_ s' = markers_ s ∧
  callbacks_ s' = callbacks_ s ∧ enabled_ s' = enabled_ s.
Proof.
  intros s'. unfold s', Process, Process_locked.
  destruct (mark_successors_frame point tid s) as (He&_&Hs&Hp&Hcb&Hm&_).
  destruct (enabled_ s) eqn:Hon; simpl; [|by split_and!; [left|..]].
  destruct (DisabledByMarker _ _ _); simpl;
    [rewrite Hp, Hs, Hm, Hcb, He; by split_and!; [left|..]|].
  destruct (Process_loop_frame point (mark_successors point tid s))
    as (->&->&->&->&_&->).
  rewrite Hp, Hs, Hm, Hcb, He. split_and!; [|intros q; apply at_or_empty_touch|done..].
  unfold touch. destruct (predecessors_ s !! point); [by left|by right].
Qed.

(** ** Replaying a graph *)

(** X13: dependencies are armed again by a reload and by [ClearTrace].  With
    processing enabled, the first firing of a point that has a predecessor
    parks right after [LoadDependencyAndMarkers], whatever had been cleared
    before; and it parks right after [ClearTrace] in any state that holds the
    graph, unless a marker record suppresses the caller. *)
Theorem X13_reload_and_ClearTrace_rearm dependencies markers s a point args tid :
  enabled_ s = true →
  edge (dependencies ++ markers) a point →
  outcome (Process point args tid (LoadDependencyAndMarkers dependencies markers s))
    = Blocked ∧
  (∀ s', enabled_ s' = true →
         (∀ v, marked_thread_id_ s' !! point = Some v → v = tid) →
         at_or_empty point (predecessors_ s') = preds_in (dependencies ++ markers) point →
         outcome (Process point args tid (ClearTrace s')) = Blocked).
Proof.
  intros Hon Hedge. apply elem_of_preds_in in Hedge. split.
  - destruct (load_untouched dependencies markers s) as (Hen&_&_&Hrec&Hcl).
    apply (Process_parks_when _ point args tid a).
    + congruence.
    + intros v. by rewrite Hrec, lookup_empty.
    + by destruct (load_indices dependencies markers s point) as (_&->&_).
    + rewrite Hcl. apply not_elem_of_empty.
  - intros s' Hon' Hown Hpreds. apply (Process_parks_when _ point args tid a); [done..| |].
    + simpl. by rewrite Hpreds.
    + apply not_elem_of_empty.
Qed.

Lemma X13_reload_and_ClearTrace_rearm_witness :
  outcome (Process "Step:2" [] 2%nat
             (LoadDependencyAndMarkers [mkPair "Step:1" "Step:2"] []
                (state (Process "Step:1" [] 1%nat (EnableProcessing Impl_new)))))
  = Blocked.
Proof.
  apply (X13_reload_and_ClearTrace_rearm [mkPair "Step:1" "Step:2"] []
           (state (Process "Step:1" [] 1%nat (EnableProcessing Impl_new)))
           "Step:1" "Step:2" [] 2%nat).
  - by_computing.
  - apply list_elem_of_here.
Defined.

(** ** What every step keeps of the graph and of the records *)

Lemma Process_locked_marked point tid s :
  marked_thread_id_ (state (Process_locked point tid s))
  = marked_thread_id_ (mark_successors point tid s).
Proof.
  unfold Process_locked. destruct (DisabledByMarker _ _ _); simpl; [done|].
  by destruct (Process_loop_frame point (mark_successors point tid s)) as (_&_&_&_&->&_).
Qed.

Lemma Process_wake_marked point tid s :
  marked_thread_id_ (state (Process_wake point tid s)) = marked_thread_id_ s.
Proof.
  unfold Process_wake. destruct (DisabledByMarker _ _ _); simpl; [done|].
  by destruct (Process_loop_frame point s) as (_&_&_&_&->&_).
Qed.

Lemma Process_locked_markers point tid s :
  markers_ (state (Process_locked point tid s)) = markers_ s ∧
  successors_ (state (Process_locked point tid s)) = successors_ s.
Proof.
  unfold Process_locked.
  destruct (mark_successors_frame point tid s) as (_&_&Hs&_&_&Hm&_).
  destruct (DisabledByMarker _ _ _); simpl; [done|].
  destruct (Process_loop_frame point (mark_successors point tid s)) as (_&->&_&->&_).
  done.
Qed.

Lemma Process_wake_markers point tid s :
  markers_ (state (Process_wake point tid s)) = markers_ s ∧
  successors_ (state (Process_wake point tid s)) = successors_ s.
Proof.
  unfold Process_wake. destruct (DisabledByMarker _ _ _); simpl; [done|].
  by destruct (Process_loop_frame point s) as (_&->&_&->&_).
Qed.

(** Only the marking loop writes records. *)
Lemma step_marked σ l σ' :
  step σ l σ' → is_reload l = false →
  marked_thread_id_ (impl σ') = marked_thread_id_ (impl σ) ∨
  ∃ t p o n, l = L_Process t p o n ∧
    marked_thread_id_ (impl σ') = marked_thread_id_ (mark_successors p t (impl σ)).
Proof.
  intros Hstep Hl. step_cases Hstep; try done; try by left.
  - left. by destruct (ClearCallBack_frame point s) as (_&_&_&_&_&->&_).
  - left. by destruct (ClearCallBack_frame point s) as (_&_&_&_&_&->&_).
  - left. by destruct (ClearAllCallBacks_frame s) as (_&_&_&_&_&->&_).
  - left. by destruct (ClearAllCallBacks_frame s) as (_&_&_&_&_&->&_).
  - right. eexists _, _, _, _. split; [done|]. apply Process_locked_marked.
  - left. apply Process_wake_marked.
Qed.

Lemma step_keeps_record σ l σ' S v :
  step σ l σ' → is_reload l = false →
  marked_thread_id_ (impl σ) !! S = Some v → marked_thread_id_ (impl σ') !! S = Some v.
Proof.
  intros Hstep Hl HS. destruct (step_marked _ _ _ Hstep Hl) as [->|(t&p&o&n&_&->)]; [done|].
  by rewrite mark_successors_lookup, HS.
Qed.

Lemma step_new_record σ l σ' S v :
  step σ l σ' → is_reload l = false →
  marked_thread_id_ (impl σ') !! S = Some v →
  marked_thread_id_ (impl σ) !! S = Some v ∨
  ∃ p, S ∈ at_or_empty p (markers_ (impl σ)).
Proof.
  intros Hstep Hl. destruct (step_marked _ _ _ Hstep Hl) as [->|(t&p&o&n&_&->)]; [by left|].
  rewrite mark_successors_lookup. destruct (marked_thread_id_ (impl σ) !! S); [by left|].
  case_decide; [|done]. intros _. right. by exists p.
Qed.

Lemma step_graph σ l σ' :
  step σ l σ' → is_reload l = false →
  successors_ (impl σ') = successors_ (impl σ) ∧
  markers_ (impl σ') = markers_ (impl σ) ∧
  ∀ q, at_or_empty q (predecessors_ (impl σ')) = at_or_empty q (predecessors_ (impl σ)).
Proof.
  intros Hstep Hl. step_cases Hstep; try done.
  - by destruct (ClearCallBack_frame point s) as (_&_&->&->&->&_).
  - by destruct (ClearCallBack_frame point s) as (_&_&->&->&->&_).
  - by destruct (ClearAllCallBacks_frame s) as (_&_&->&->&->&_).
  - by destruct (ClearAllCallBacks_frame s) as (_&_&->&->&->&_).
  - destruct (Process_locked_markers point t s) as [-> ->].
    split_and!; [done..|]. intros q. apply Process_locked_preds.
  - destruct (Process_wake_markers point t s) as [-> ->].
    split_and!; [done..|]. intros q. apply Process_wake_preds.
Qed.

Lemma step_loaded_graph es ms σ l σ' :
  step σ l σ' → is_reload l = false →
  loaded_graph es ms (impl σ) → loaded_graph es ms (impl σ').
Proof.
  intros Hstep Hl [Hp Hm Hr]. destruct (step_graph _ _ _ Hstep Hl) as (_ & Hmk & Hpr).
  split.
  - intros p. by rewrite Hpr.
  - intros p. by rewrite Hmk.
  - intros S v HS. destruct (step_new_record _ _ _ _ _ Hstep Hl HS) as [Hold|[p Hin]].
    + by eapply Hr.
    + exists p. rewrite Hm in Hin. by apply elem_of_succs_in.
Qed.

Lemma exec_loaded_graph es ms σ0 tr σ :
  exec σ0 tr σ → Forall (λ l, is_reload l = false) tr →
  loaded_graph es ms (impl σ0) → loaded_graph es ms (impl σ).
Proof.
  induction 1 as [|tr σ1 l σ2 _ IH Hstep]; intros Hall Hg; [done|].
  apply Forall_app in Hall as [Hall Hl]. rewrite Forall_singleton in Hl.
  eapply step_loaded_graph; [done..|]. by apply IH.
Qed.

Lemma load_loaded_graph dependencies markers s :
  loaded_graph (dependencies ++ markers) markers
               (LoadDependencyAndMarkers dependencies markers s).
Proof.
  split.
  - intros p. by destruct (load_indices dependencies markers s p) as (_&->&_).
  - intros p. by destruct (load_indices dependencies markers s p) as (_&_&->).
  - intros S v. destruct (load_untouched dependencies markers s) as (_&_&_&->&_).
    by rewrite lookup_empty.
Qed.

(** X10: between two reloads the graph is frozen and the marked-thread
    records are write-once.  Over every execution, by any threads, without a
    [LoadDependencyAndMarkers] step, a record that exists keeps its thread,
    the successor and marker indices do not change, and no predecessor vector
    changes. *)
Theorem X10_records_and_graph_persist σ tr σ' :
  exec σ tr σ' →
  Forall (λ l, is_reload l = false) tr →
  (∀ S v, marked_thread_id_ (impl σ) !! S = Some v →
          marked_thread_id_ (impl σ') !! S = Some v) ∧
  successors_ (impl σ') = successors_ (impl σ) ∧
  markers_ (impl σ') = markers_ (impl σ) ∧
  (∀ q, at_or_empty q (predecessors_ (impl σ')) = at_or_empty q (predecessors_ (impl σ))).
Proof.
  induction 1 as [|tr σ1 l σ2 _ IH Hstep]; intros Hall; [done|].
  apply Forall_app in Hall as [Hall Hl]. rewrite Forall_singleton in Hl.
  destruct (IH Hall) as (Hrec & Hs & Hm & Hp).
  destruct (step_graph _ _ _ Hstep Hl) as (Hs' & Hm' & Hp').
  split_and!.
  - intros S v HS. eapply step_keeps_record; [done..|]. by apply Hrec.
  - congruence.
  - congruence.
  - intros q. by rewrite Hp', Hp.
Qed.

Lemma X10_records_and_graph_persist_witness :
  let σ := mkSystem (state (Process "Marker" [] 1%nat
             (LoadDependencyAndMarkers [] [mkPair "Marker" "MarkedPoint"]
                (EnableProcessing Impl_new)))) ∅ in
  ∃ σ',
    exec σ [L_Process_enter 2%nat "Marker" [] true;
            L_Process 2%nat "Marker" Returned true;
            L_ClearTrace 0%nat;
            L_DisableProcessing 0%nat] σ' ∧
    marked_thread_id_ (impl σ') !! "MarkedPoint" = Some 1%nat.
Proof.
  intros σ.
  assert (∃ σ',
    exec σ [L_Process_enter 2%nat "Marker" [] true;
            L_Process 2%nat "Marker" Returned true;
            L_ClearTrace 0%nat;
            L_DisableProcessing 0%nat] σ') as [σ' Hex].
  { eexists. unfold σ. run_trace. }
  exists σ'. split; [exact Hex|].
  apply (X10_records_and_graph_persist σ _ σ' Hex).
  - repeat constructor.
  - by_computing.
Defined.

(** ** Points without predecessors *)

Lemma preds_in_nil es p : (∀ a, ¬ edge es a p) → preds_in es p = [].
Proof.
  intros Hno. destruct (preds_in es p) as [|a l] eqn:Hp; [done|].
  destruct (Hno a). apply elem_of_preds_in. rewrite Hp. apply list_elem_of_here.
Qed.

Lemma unconstrained_loop point s :
  at_or_empty point (predecessors_ s) = [] →
  outcome (Process_loop point s) ≠ Blocked ∧
  (outcome (Process_loop point s) = Returned → notify_all (Process_loop point s) = true).
Proof.
  intros Hnil. rewrite Process_loop_outcome, Hnil. simpl.
  unfold Process_fire. simpl. by destruct (callbacks_ s !! point).
Qed.

(** X4: a point that is the successor of no pair of the loaded graph, be it a
    dependency or a marker, is never held back.  In every execution since the
    load that does not reload, each piece of [Process] run for it under the
    lock either calls its callback or clears it: it never parks and it is
    never suppressed. *)
Theorem X4_unconstrained_point_is_never_held_back
    dependencies markers s T tr σ t point o n σ' :
  exec (mkSystem (LoadDependencyAndMarkers dependencies markers s) T) tr σ →
  Forall (λ l, is_reload l = false) tr →
  (∀ a, ¬ edge (dependencies ++ markers) a point) →
  step σ (L_Process t point o n) σ' →
  o ≠ Blocked ∧ (o = Returned → n = true).
Proof.
  intros Hex Hall Hfree Hstep.
  pose proof (exec_loaded_graph _ _ _ _ _ Hex Hall
                (load_loaded_graph dependencies markers s)) as [Hp Hm Hr].
  simpl in *.
  assert (Hnorec : ∀ s', (∀ S v, marked_thread_id_ s' !! S = Some v →
                                 marked_thread_id_ (impl σ) !! S = Some v ∨
                                 ∃ p, S ∈ at_or_empty p (markers_ (impl σ))) →
                         marked_thread_id_ s' !! point = None).
  { intros s' Hs'. destruct (marked_thread_id_ s' !! point) as [v|] eqn:Hv; [|done].
    destruct (Hs' _ _ Hv) as [Hold|[p Hin]].
    - destruct (Hr _ _ Hold) as [P HP]. destruct (Hfree P).
      unfold edge in *. apply elem_of_app. by right.
    - rewrite Hm in Hin. apply elem_of_succs_in in Hin. destruct (Hfree p).
      unfold edge in *. apply elem_of_app. by right. }
  assert (Hnil : at_or_empty point (predecessors_ (impl σ)) = []).
  { rewrite Hp. by apply preds_in_nil. }
  inversion Hstep as
    [ | | | | | | | | | | | ? ? ? ? ? ? ? ? ? Hst Hr' | ? ? ? ? ? ? ? ? ? Hst Hr'
    | ? ? ? ? ? ? ? ? ? ? Hst Hr' ]; subst; simpl in *.
  - apply result_parts in Hr' as (_ & -> & ->). unfold Process_locked.
    destruct (mark_successors_frame point t s0) as (_&_&_&Hpm&_&_&_).
    assert (DisabledByMarker point t (mark_successors point t s0) = false) as ->.
    { unfold DisabledByMarker. rewrite Hnorec; [done|].
      intros S v. rewrite mark_successors_lookup.
      destruct (marked_thread_id_ s0 !! S); [by left|].
      case_decide; [|done]. intros _. right. by exists point. }
    apply unconstrained_loop. by rewrite Hpm.
  - apply result_parts in Hr' as (_ & -> & ->). unfold Process_wake.
    assert (DisabledByMarker point t s0 = false) as ->.
    { unfold DisabledByMarker. rewrite Hnorec; [done|]. intros S v ?. by left. }
    by apply unconstrained_loop.
  - by inversion Hr'.
Qed.

Lemma X4_unconstrained_point_is_never_held_back_witness :
  ∃ σ o n σ',
    exec (mkSystem (LoadDependencyAndMarkers
                      [mkPair "Step:1" "Step:2"] [mkPair "Marker" "MarkedPoint"]
                      (EnableProcessing Impl_new)) ∅)
         [L_Process_enter 1%nat "Step:1" [] true] σ ∧
    step σ (L_Process 1%nat "Step:1" o n) σ' ∧
    o ≠ Blocked ∧ (o = Returned → n = true).
Proof.
  assert (∃ σ,
    exec (mkSystem (LoadDependencyAndMarkers
                      [mkPair "Step:1" "Step:2"] [mkPair "Marker" "MarkedPoint"]
                      (EnableProcessing Impl_new)) ∅)
         [L_Process_enter 1%nat "Step:1" [] true] σ ∧
    ∃ o n σ', step σ (L_Process 1%nat "Step:1" o n) σ')
    as (σ & Hex & o & n & σ' & Hstep).
  { eexists. split; [run_trace|].
    eexists _, _, _. eapply step_Process_locked; by_computing. }
  assert (Hfree : ∀ a, ¬ edge ([mkPair "Step:1" "Step:2"] ++ [mkPair "Marker" "MarkedPoint"])
                                a "Step:1").
  { intros a Ha. unfold edge in Ha. simpl in Ha.
    rewrite !elem_of_cons, elem_of_nil in Ha. destruct Ha as [Ha|[Ha|[]]]; discriminate Ha. }
  exists σ, o, n, σ'. split; [exact Hex|]. split; [exact Hstep|].
  apply (X4_unconstrained_point_is_never_held_back _ _ _ _ _ σ 1%nat "Step:1" o n σ'
           Hex ltac:(repeat constructor) Hfree Hstep).
Defined.

(** ** Marked successors run on the marking thread *)

Lemma frames_after_removal W o rest f :
  f ∈ after_removal W o rest → f = W ∨ f ∈ rest.
Proof.
  unfold after_removal. destruct o; try by right.
  intros Hf. apply elem_of_cons in Hf as [->|Hf]; [by left|by right].
Qed.

Lemma frames_after_Process point args o rest f :
  f ∈ after_Process point args o rest →
  f ∈ rest ∨ (f = InProcess_wait point args ∧ o = Blocked) ∨
  ∃ cb, f = InProcess_callback point cb args ∧ o = Calling cb.
Proof.
  unfold after_Process. destruct o as [| |cb]; [by left| |]; intros Hf;
    apply elem_of_cons in Hf as [->|Hf]; try by left.
  - right. by left.
  - right. right. by exists cb.
Qed.

Lemma Process_locked_passed_own point tid s :
  passed (Process_locked point tid s) →
  DisabledByMarker point tid (mark_successors point tid s) = false.
Proof.
  unfold passed, Process_locked. destruct (DisabledByMarker _ _ _); [|done].
  simpl. intros [?|[cb ?]]; done.
Qed.

Lemma Process_wake_passed_own point tid s :
  passed (Process_wake point tid s) → DisabledByMarker point tid s = false.
Proof.
  unfold passed, Process_wake. destruct (DisabledByMarker _ _ _); [|done].
  simpl. intros [?|[cb ?]]; done.
Qed.

Lemma not_disabled_owner point tid s v :
  DisabledByMarker point tid s = false →
  marked_thread_id_ s !! point = Some v → v = tid.
Proof.
  unfold DisabledByMarker. intros Hd Hv. rewrite Hv in Hd.
  apply bool_decide_eq_false in Hd. destruct (decide (tid = v)); [done|by destruct Hd].
Qed.

Section affinity.
Context (es ms : list SyncPointPair).
Hypothesis markers_are_edges : ∀ a b, edge ms a b → edge es a b.

(** A piece that gets past the wait loop for a marked successor runs on the
    recorded thread. *)
Lemma locked_pass_owner tr s T t S P :
  ordered es tr (mkSystem s T) → affine ms tr (mkSystem s T) →
  passed (Process_locked S t s) → edge ms P S →
  marked_thread_id_ (state (Process_locked S t s)) !! S = Some t.
Proof.
  intros Hord Haff Hpass Hedge.
  assert (HP : P ∈ cleared_points_ s).
  { apply (Process_locked_passed S t s Hpass).
    rewrite (ord_preds _ _ _ Hord). by apply elem_of_preds_in, markers_are_edges. }
  apply (ord_cleared _ _ _ Hord) in HP.
  destruct (aff_fired _ _ _ Haff P S Hedge HP) as [v Hv]. simpl in Hv.
  rewrite Process_locked_marked.
  assert (Hv' : marked_thread_id_ (mark_successors S t s) !! S = Some v)
    by by rewrite mark_successors_lookup, Hv.
  rewrite Hv'. f_equal.
  by eapply not_disabled_owner; [apply Process_locked_passed_own|].
Qed.

Lemma wake_pass_owner tr s T t S P :
  ordered es tr (mkSystem s T) → affine ms tr (mkSystem s T) →
  passed (Process_wake S t s) → edge ms P S →
  marked_thread_id_ (state (Process_wake S t s)) !! S = Some t.
Proof.
  intros Hord Haff Hpass Hedge.
  assert (HP : P ∈ cleared_points_ s).
  { apply (Process_wake_passed S t s Hpass).
    rewrite (ord_preds _ _ _ Hord). by apply elem_of_preds_in, markers_are_edges. }
  apply (ord_cleared _ _ _ Hord) in HP.
  destruct (aff_fired _ _ _ Haff P S Hedge HP) as [v Hv]. simpl in Hv.
  rewrite Process_wake_marked, Hv. f_equal.
  by eapply not_disabled_owner; [apply Process_wake_passed_own|].
Qed.

Lemma affine_extend tr σ l σ' :
  affine ms tr σ →
  (∀ S v, marked_thread_id_ (impl σ) !! S = Some v →
          marked_thread_id_ (impl σ') !! S = Some v) →
  (∀ P, clears P l = true →
        ∀ S, edge ms P S → is_Some (marked_thread_id_ (impl σ') !! S)) →
  (∀ t f P, f ∈ stack_of t (threads σ') → past_marking f = Some P →
     (∃ t', f ∈ stack_of t' (threads σ)) ∨
     (∀ S, edge ms P S → is_Some (marked_thread_id_ (impl σ') !! S))) →
  (∀ t S cb args, InProcess_callback S cb args ∈ stack_of t (threads σ') →
     InProcess_callback S cb args ∈ stack_of t (threads σ) ∨
     (∀ P, edge ms P S → marked_thread_id_ (impl σ') !! S = Some t)) →
  affine ms (tr ++ [l]) σ'.
Proof.
  intros [Hf Hi Ho] Hkeep Hclears Hframes Hcalls. split.
  - intros P S Hedge HP. apply fired_snoc in HP as [HP|HP].
    + destruct (Hf P S Hedge HP) as [v Hv]. exists v. by apply Hkeep.
    + by eapply Hclears.
  - intros t f P S Hin Hpm Hedge.
    destruct (Hframes t f P Hin Hpm) as [[t' Hin']|Hnew]; [|by apply Hnew].
    destruct (Hi t' f P S Hin' Hpm Hedge) as [v Hv]. exists v. by apply Hkeep.
  - intros t S cb args P Hin Hedge.
    destruct (Hcalls t S cb args Hin) as [Hin'|Hnew]; [|by eapply Hnew].
    apply Hkeep. by eapply Ho.
Qed.

(** The stepping thread's frames for steps that push or pop no frame of
    [Process] past its marking loop. *)
Ltac kept_frames t :=
  let t0 := fresh "t" in
  let Hin := fresh "Hin" in
  intros t0 ? ?; rewrite ?stack_of_insert; try case_decide;
  [ subst t0; intros Hin ?;
    first [ apply frames_after_removal in Hin as [->|Hin]; [done|]
          | apply elem_of_cons in Hin as [->|Hin]; [done|]
          | idtac ];
    old_frame t
  | intros Hin ?; left; by exists t0 ].

Ltac kept_calls t :=
  let t0 := fresh "t" in
  let Hin := fresh "Hin" in
  intros t0 ? ? ?; rewrite ?stack_of_insert; try case_decide;
  [ subst t0; intros Hin;
    first [ apply callback_in_after_removal in Hin; [|done]
          | apply elem_of_cons in Hin as [Hin|Hin]; [discriminate Hin|]
          | idtac ];
    left;
    match goal with
    | Hst : stack_of t _ = _ :: _ |- _ => rewrite Hst; by apply list_elem_of_further
    | _ => done
    end
  | intros Hin; by left ].

Lemma step_affine tr σ l σ' :
  step σ l σ' → is_reload l = false →
  ordered es tr σ → loaded_graph es ms (impl σ) → affine ms tr σ →
  affine ms (tr ++ [l]) σ'.
Proof.
  intros Hstep Hl Hord Hg Haff.
  pose proof (λ S v, step_keeps_record σ l σ' S v Hstep Hl) as Hkeep.
  apply (affine_extend _ _ _ _ Haff Hkeep); clear Hkeep.
  - (* the step clears [P]: its marking loop has run *)
    intros P Hc S Hedge.
    destruct l; simpl in Hc; try done.
    apply andb_true_iff in Hc as [Hq Hn]. apply bool_decide_eq_true in Hq as ->.
    subst notified.
    inversion Hstep as
      [ | | | | | | | | | | | ? ? ? ? ? ? ? ? ? Hst Hr | ? ? ? ? ? ? ? ? ? Hst Hr
      | ? ? ? ? ? ? ? ? ? ? Hst Hr ]; subst; simpl in *.
    + apply result_parts in Hr as (-> & _ & _). rewrite Process_locked_marked.
      rewrite mark_successors_lookup. destruct (marked_thread_id_ s !! S); [done|].
      rewrite decide_True; [done|].
      rewrite (lg_markers _ _ _ Hg). by apply elem_of_succs_in.
    + apply result_parts in Hr as (-> & _ & _). rewrite Process_wake_marked.
      apply (aff_inside _ _ _ Haff t (InProcess_wait P args) P S); [|done..].
      simpl. rewrite Hst. apply list_elem_of_here.
    + inversion Hr; subst. simpl.
      apply (aff_inside _ _ _ Haff t (InProcess_callback P cb args) P S); [|done..].
      simpl. rewrite Hst. apply list_elem_of_here.
  - (* frames past the marking loop *)
    step_cases Hstep; try done; try (intros t0 f P Hin _; left; by exists t0).
    1-5: kept_frames t.
    + intros t0 f P. rewrite stack_of_insert. case_decide; [subst t0|intros Hin _; left; by exists t0].
      intros Hin Hpm. apply frames_after_Process in Hin as [Hin|Hnew]; [old_frame t|].
      right. intros S Hedge. rewrite Process_locked_marked, mark_successors_lookup.
      assert (P = point) as -> by (destruct Hnew as [[-> _]|(cb & -> & _)]; by injection Hpm).
      destruct (marked_thread_id_ s !! S); [done|].
      rewrite decide_True; [done|].
      rewrite (lg_markers _ _ _ Hg). by apply elem_of_succs_in.
    + intros t0 f P. rewrite stack_of_insert. case_decide; [subst t0|intros Hin _; left; by exists t0].
      intros Hin Hpm. apply frames_after_Process in Hin as [Hin|Hnew]; [old_frame t|].
      right. intros S Hedge. rewrite Process_wake_marked.
      assert (P = point) as -> by (destruct Hnew as [[-> _]|(cb & -> & _)]; by injection Hpm).
      apply (aff_inside _ _ _ Haff t (InProcess_wait point args) point S); [|done..].
      simpl. match goal with Hst : stack_of t T = _ |- _ => rewrite Hst end.
      apply list_elem_of_here.
    + kept_frames t.
  - (* callbacks being executed *)
    step_cases Hstep; try done; try (intros t0 S cb0 args0 Hin; by left).
    1-5: kept_calls t.
    + intros t0 S cb0 args0. rewrite stack_of_insert.
      case_decide; [subst t0|intros Hin; by left].
      intros Hin. apply callback_in_after_Process in Hin as [Hin|[-> Ho]].
      * left. match goal with Hst : stack_of t T = _ |- _ => rewrite Hst end.
        by apply list_elem_of_further.
      * right. intros P Hedge. eapply locked_pass_owner; [done..| |done].
        right. by exists cb0.
    + intros t0 S cb0 args0. rewrite stack_of_insert.
      case_decide; [subst t0|intros Hin; by left].
      intros Hin. apply callback_in_after_Process in Hin as [Hin|[-> Ho]].
      * left. match goal with Hst : stack_of t T = _ |- _ => rewrite Hst end.
        by apply list_elem_of_further.
      * right. intros P Hedge. eapply wake_pass_owner; [done..| |done].
        right. by exists cb0.
    + kept_calls t.
Qed.
End affinity.

Lemma markers_are_dependencies dependencies markers a b :
  edge markers a b → edge (dependencies ++ markers) a b.
Proof. unfold edge. intros H. apply elem_of_app. by right. Qed.

Lemma exec_affine es ms σ0 tr σ :
  (∀ a b, edge ms a b → edge es a b) →
  exec σ0 tr σ → Forall (λ l, is_reload l = false) tr →
  ordered es [] σ0 → loaded_graph es ms (impl σ0) → affine ms [] σ0 →
  affine ms tr σ.
Proof.
  intros Hsub. induction 1 as [|tr σ1 l σ2 Hex IH Hstep]; intros Hall Hord Hg Haff; [done|].
  apply Forall_app in Hall as [Hall Hl]. rewrite Forall_singleton in Hl.
  apply (step_affine es ms Hsub tr σ1); [done..| | |by apply IH].
  - by apply (exec_ordered es σ0).
  - by apply (exec_loaded_graph es ms σ0 tr).
Qed.

Lemma loaded_affine markers s T :
  (∀ t f, f ∈ stack_of t T → past_marking f = None) →
  affine markers [] (mkSystem s T).
Proof.
  intros Hidle. split; simpl.
  - intros P S _ (l & Hl & _). by apply elem_of_nil in Hl.
  - intros t f P S Hin Hpm. by rewrite (Hidle t f Hin) in Hpm.
  - intros t S cb args P Hin. by apply Hidle in Hin.
Qed.

(** X3: the thread affinity of a marker.  Load a graph while no thread is
    parked in, or running the callback of, a call of [Process], and take any
    execution from there that does not reload.  Whenever a piece of [Process]
    calls the callback of a marked successor or clears it, the calling thread
    is the one recorded for that successor: no other thread ever runs its
    callback or clears it. *)
Theorem X3_marked_successor_only_on_recorded_thread
    dependencies markers s T tr σ t S o n σ' P :
  (∀ t f, f ∈ stack_of t T → past_marking f = None) →
  exec (mkSystem (LoadDependencyAndMarkers dependencies markers s) T) tr σ →
  Forall (λ l, is_reload l = false) tr →
  edge markers P S →
  step σ (L_Process t S o n) σ' →
  n = true ∨ (∃ cb, o = Calling cb) →
  marked_thread_id_ (impl σ') !! S = Some t.
Proof.
  intros Hidle Hex Hall Hedge Hstep Hpass.
  set (es := dependencies ++ markers).
  assert (Hord0 : ordered es [] (mkSystem (LoadDependencyAndMarkers dependencies markers s) T)).
  { apply loaded_ordered. intros t0 f Hf. apply Hidle in Hf. by destruct f. }
  pose proof (exec_ordered _ _ _ _ Hex Hall Hord0) as Hord.
  pose proof (exec_loaded_graph _ _ _ _ _ Hex Hall
                (load_loaded_graph dependencies markers s)) as Hg.
  pose proof (exec_affine es markers _ _ _ (markers_are_dependencies dependencies markers)
                Hex Hall Hord0 (load_loaded_graph dependencies markers s)
                (loaded_affine markers _ T Hidle)) as Haff.
  inversion Hstep as
    [ | | | | | | | | | | | ? ? ? ? ? ? ? ? ? Hst Hr | ? ? ? ? ? ? ? ? ? Hst Hr
    | ? ? ? ? ? ? ? ? ? ? Hst Hr ]; subst; simpl in *.
  - apply result_parts in Hr as (-> & -> & ->).
    by apply (locked_pass_owner es markers
                (markers_are_dependencies dependencies markers) tr s0 T0 t S P).
  - apply result_parts in Hr as (-> & -> & ->).
    by apply (wake_pass_owner es markers
                (markers_are_dependencies dependencies markers) tr s0 T0 t S P).
  - inversion Hr; subst. simpl.
    apply (aff_owner _ _ _ Haff t S cb args P); [|done].
    simpl. rewrite Hst. apply list_elem_of_here.
Qed.

Lemma X3_marked_successor_only_on_recorded_thread_witness :
  ∃ σ σ',
    exec (mkSystem (LoadDependencyAndMarkers
                      [mkPair "Thread1First" "MarkedPoint"] [mkPair "Marker" "MarkedPoint"]
                      (EnableProcessing (SetCallBack "MarkedPoint" 1%nat Impl_new))) ∅)
         [L_Process_enter 2%nat "Marker" [] true;
          L_Process 2%nat "Marker" Returned true;
          L_Process_enter 1%nat "Thread1First" [] true;
          L_Process 1%nat "Thread1First" Returned true;
          L_Process_enter 2%nat "MarkedPoint" [0] true] σ ∧
    step σ (L_Process 2%nat "MarkedPoint" (Calling 1%nat) false) σ' ∧
    marked_thread_id_ (impl σ') !! "MarkedPoint" = Some 2%nat.
Proof.
  assert (∃ σ,
    exec (mkSystem (LoadDependencyAndMarkers
                      [mkPair "Thread1First" "MarkedPoint"] [mkPair "Marker" "MarkedPoint"]
                      (EnableProcessing (SetCallBack "MarkedPoint" 1%nat Impl_new))) ∅)
         [L_Process_enter 2%nat "Marker" [] true;
          L_Process 2%nat "Marker" Returned true;
          L_Process_enter 1%nat "Thread1First" [] true;
          L_Process 1%nat "Thread1First" Returned true;
          L_Process_enter 2%nat "MarkedPoint" [0] true] σ ∧
    ∃ σ', step σ (L_Process 2%nat "MarkedPoint" (Calling 1%nat) false) σ')
    as (σ & Hex & σ' & Hstep).
  { eexists. split; [run_trace|].
    eexists. eapply step_Process_locked; by_computing. }
  exists σ, σ'. split; [exact Hex|]. split; [exact Hstep|].
  eapply (X3_marked_successor_only_on_recorded_thread _ _ _ _ _ σ 2%nat "MarkedPoint"
            (Calling 1%nat) false σ' "Marker").
  - intros t f Hf. unfold stack_of in Hf. rewrite lookup_empty in Hf.
    by apply elem_of_nil in Hf.
  - exact Hex.
  - repeat constructor.
  - apply list_elem_of_here.
  - exact Hstep.
  - right. by exists 1%nat.
Defined.

(** ** Dependency cycles *)

Lemma never_fired_on_cycle es σ0 tr σ q :
  ordered es [] σ0 → exec σ0 tr σ → Forall (λ l, is_reload l = false) tr →
  depends es q q → ¬ fired tr q.
Proof.
  intros Hord0 Hex Hall Hcycle. induction Hex as [|tr σ1 l σ2 Hex IH Hstep].
  - intros (l & Hl & _). by apply elem_of_nil in Hl.
  - apply Forall_app in Hall as [Hall Hl]. intros Hf.
    apply fired_snoc in Hf as [Hf|Hc]; [by apply IH|].
    apply IH; [done|].
    pose proof (exec_ordered _ _ _ _ Hex Hall Hord0) as Hord.
    apply tc_last in Hcycle as (c & Hrtc & Hedge).
    apply (fired_ancestors es tr σ1 q c); [done..|].
    apply (step_after_predecessors es tr σ1 l σ2 q); [done|done|by right|done].
Qed.

(** X2: a point on a dependency cycle, or reached from one, never fires.
    Load a graph while no callback is running; in every execution from there
    that does not reload it, no step calls the callback of such a point and no
    step clears it, so it is never in the cleared-points set: every thread that
    fires it stays parked. *)
Theorem X2_points_on_a_cycle_never_fire dependencies markers s T tr σ q point :
  (∀ t f, f ∈ stack_of t T → is_callback f = false) →
  exec (mkSystem (LoadDependencyAndMarkers dependencies markers s) T) tr σ →
  Forall (λ l, is_reload l = false) tr →
  depends (dependencies ++ markers) q q →
  rtc (edge (dependencies ++ markers)) q point →
  (∀ l, l ∈ tr → invokes point l = false ∧ clears point l = false) ∧
  point ∉ cleared_points_ (impl σ).
Proof.
  intros Hidle Hex Hall Hcycle Hreach.
  set (es := dependencies ++ markers) in *.
  pose proof (loaded_ordered dependencies markers s T Hidle) as Hord0. fold es in Hord0.
  assert (Hdep : depends es q point) by by eapply tc_rtc_r.
  assert (Hnever : ∀ l, l ∈ tr → invokes point l = true ∨ clears point l = true → False).
  { intros l Hl Hfire. apply list_elem_of_split in Hl as (tr1 & tr2 & ->).
    pose proof (fires_after_dependencies es _ _ _ q point tr1 l tr2
                  Hord0 Hex Hall Hdep eq_refl Hfire) as Hq.
    apply exec_split in Hex as (σ1 & σ2 & Hex1 & _ & _).
    apply Forall_app in Hall as [Hall1 _].
    by apply (never_fired_on_cycle es _ tr1 σ1 q Hord0 Hex1 Hall1 Hcycle). }
  split.
  - intros l Hl. destruct (invokes point l) eqn:Hi; [destruct (Hnever l Hl); by left|].
    destruct (clears point l) eqn:Hc; [destruct (Hnever l Hl); by right|done].
  - intros Hin. apply (ord_cleared _ _ _ (exec_ordered _ _ _ _ Hex Hall Hord0)) in Hin.
    destruct Hin as (l & Hl & Hc). apply (Hnever l Hl). by right.
Qed.

Lemma X2_points_on_a_cycle_never_fire_witness :
  ∃ σ,
    exec (mkSystem (LoadDependencyAndMarkers
                      [mkPair "Step:1" "Step:2"; mkPair "Step:2" "Step:1";
                       mkPair "Step:2" "Step:3"] []
                      (EnableProcessing Impl_new)) ∅)
         [L_Process_enter 1%nat "Step:3" [] true;
          L_Process 1%nat "Step:3" Blocked false;
          L_Process_enter 2%nat "Step:1" [] true;
          L_Process 2%nat "Step:1" Blocked false;
          L_Process 1%nat "Step:3" Blocked false] σ ∧
    "Step:3" ∉ cleared_points_ (impl σ).
Proof.
  assert (∃ σ,
    exec (mkSystem (LoadDependencyAndMarkers
                      [mkPair "Step:1" "Step:2"; mkPair "Step:2" "Step:1";
                       mkPair "Step:2" "Step:3"] []
                      (EnableProcessing Impl_new)) ∅)
         [L_Process_enter 1%nat "Step:3" [] true;
          L_Process 1%nat "Step:3" Blocked false;
          L_Process_enter 2%nat "Step:1" [] true;
          L_Process 2%nat "Step:1" Blocked false;
          L_Process 1%nat "Step:3" Blocked false] σ) as [σ Hex].
  { eexists. run_trace. }
  exists σ. split; [exact Hex|].
  eapply (X2_points_on_a_cycle_never_fire _ _ _ _ _ σ "Step:2" "Step:3").
  - intros t f Hf. unfold stack_of in Hf. rewrite lookup_empty in Hf.
    by apply elem_of_nil in Hf.
  - exact Hex.
  - repeat constructor.
  - apply (tc_l _ _ "Step:1"); [|apply tc_once]; unfold edge; simpl;
      rewrite !elem_of_cons; auto.
  - apply rtc_once. unfold edge. simpl. rewrite !elem_of_cons. auto.
Defined.

(** ** The counter and the callbacks being executed *)

Lemma callbacks_in_le_in_flight t (T : gmap thread_id (list Frame)) :
  (callbacks_in (stack_of t T) ≤ in_flight T)%nat.
Proof. pose proof (in_flight_insert t [] T) as H. simpl in H. lia. Qed.

Lemma in_flight_all_zero (T : gmap thread_id (list Frame)) :
  (∀ t, callbacks_in (stack_of t T) = 0%nat) → in_flight T = 0%nat.
Proof.
  induction T as [|t st T Hnone _ IH] using map_first_key_ind; intros Hall.
  - done.
  - rewrite in_flight_insert_fresh by done.
    pose proof (Hall t) as Ht. rewrite stack_of_insert, decide_True in Ht by done.
    rewrite Ht, IH; [done|]. intros t'. pose proof (Hall t') as Ht'.
    rewrite stack_of_insert in Ht'. case_decide; [|done].
    subst. unfold stack_of. by rewrite Hnone.
Qed.

Lemma callbacks_in_all_false st :
  (∀ f, f ∈ st → is_callback f = false) → callbacks_in st = 0%nat.
Proof.
  induction st as [|f st IH]; intros Hall; simpl; [done|].
  rewrite (Hall f) by apply list_elem_of_here.
  rewrite IH; [done|]. intros g Hg. apply Hall. by apply list_elem_of_further.
Qed.

(** X5: in every state reachable from a new coordinator,
    [num_callbacks_running_] is the number of callbacks being executed over
    all threads (nested calls included); it is never negative, and it is zero
    exactly when no thread is inside a callback. *)
Theorem X5_counter_counts_running_callbacks tr σ :
  exec initial tr σ →
  num_callbacks_running_ (impl σ) = Z.of_nat (in_flight (threads σ)) ∧
  0 ≤ num_callbacks_running_ (impl σ) ∧
  (num_callbacks_running_ (impl σ) = 0 ↔
   ∀ t f, f ∈ stack_of t (threads σ) → is_callback f = false).
Proof.
  intros Hex. pose proof (exec_counter_ok _ _ _ Hex initial_counter_ok) as Hok.
  unfold counter_ok in Hok. split_and!; [done|lia|]. split.
  - intros Hz t f Hf. eapply callbacks_in_zero; [|done]. apply in_flight_zero. lia.
  - intros Hall. rewrite Hok, in_flight_all_zero; [done|].
    intros t. apply callbacks_in_all_false, Hall.
Qed.

Lemma X5_counter_counts_running_callbacks_witness :
  ∃ σ,
    exec initial [L_SetCallBack 0%nat "Step:6" 1%nat;
                  L_EnableProcessing 0%nat;
                  L_Process_enter 1%nat "Step:6" [] true;
                  L_Process 1%nat "Step:6" (Calling 1%nat) false;
                  L_Process_enter 1%nat "Step:6" [] true;
                  L_Process 1%nat "Step:6" (Calling 1%nat) false] σ ∧
    num_callbacks_running_ (impl σ) = Z.of_nat (in_flight (threads σ)) ∧
    num_callbacks_running_ (impl σ) = 2.
Proof.
  assert (∃ σ,
    exec initial [L_SetCallBack 0%nat "Step:6" 1%nat;
                  L_EnableProcessing 0%nat;
                  L_Process_enter 1%nat "Step:6" [] true;
                  L_Process 1%nat "Step:6" (Calling 1%nat) false;
                  L_Process_enter 1%nat "Step:6" [] true;
                  L_Process 1%nat "Step:6" (Calling 1%nat) false] σ ∧
    num_callbacks_running_ (impl σ) = 2) as (σ & Hex & Hnum).
  { eexists. split; [unfold initial; run_trace|by_computing]. }
  exists σ. split; [exact Hex|]. split; [|exact Hnum].
  apply (X5_counter_counts_running_callbacks _ σ Hex).
Defined.

(** ** A removal called from inside a callback *)

Lemma stuck_in_removal σ l σ' t W rest :
  counter_ok σ → step σ l σ' →
  stack_of t (threads σ) = W :: rest → is_removal_wait W = true →
  (0 < callbacks_in rest)%nat →
  stack_of t (threads σ') = W :: rest.
Proof.
  unfold counter_ok. intros Hok Hstep Hst HW Hin.
  assert (Hbusy : num_callbacks_running_ (impl σ) > 0).
  { pose proof (callbacks_in_le_in_flight t (threads σ)) as Hle.
    rewrite Hst in Hle. simpl in Hle. lia. }
  step_cases Hstep; try done;
    rewrite stack_of_insert; case_decide as Ht; try done; subst;
    try (match goal with
         | Hc : can_call (stack_of _ _) = true |- _ =>
             rewrite Hst in Hc; by destruct W
         end);
    match goal with
    | Heq : stack_of _ _ = ?f :: _ |- _ =>
        rewrite Hst in Heq; injection Heq as -> ->; try done
    end.
  - unfold ClearCallBack. by rewrite bool_decide_eq_true_2.
  - unfold ClearAllCallBacks. by rewrite bool_decide_eq_true_2.
Qed.

(** X6: a removal called from inside a callback never returns.  In every
    state reachable from a new coordinator, a thread that calls
    [ClearCallBack] or [ClearAllCallBacks] while it is inside a callback is
    parked, the registry untouched; and a thread parked in a removal with a
    callback of its own below it stays parked over every further execution,
    because the counter it waits for counts that callback. *)
Theorem X6_removal_inside_callback_never_returns tr σ t :
  exec initial tr σ →
  (∀ l σ' o,
     step σ l σ' →
     (0 < callbacks_in (stack_of t (threads σ)))%nat →
     (∃ p, l = L_ClearCallBack t p o) ∨ l = L_ClearAllCallBacks t o →
     o = Blocked ∧ impl σ' = impl σ) ∧
  (∀ W rest tr' σ',
     stack_of t (threads σ) = W :: rest →
     is_removal_wait W = true →
     (0 < callbacks_in rest)%nat →
     exec σ tr' σ' →
     stack_of t (threads σ') = W :: rest).
Proof.
  intros Hex. pose proof (exec_counter_ok _ _ _ Hex initial_counter_ok) as Hok.
  split.
  - intros l σ' o Hstep Hin Hl. unfold counter_ok in Hok.
    assert (Hbusy : num_callbacks_running_ (impl σ) > 0).
    { pose proof (callbacks_in_le_in_flight t (threads σ)). lia. }
    destruct Hl as [[p ->]| ->]; inversion Hstep as
      [ | | | | | ? ? ? ? ? ? ? ? Hr | ? ? ? ? ? ? ? ? ? Hr
      | ? ? ? ? ? ? ? Hr | ? ? ? ? ? ? ? ? Hr | | | | | ]; subst; simpl in *.
    1-2: unfold ClearCallBack in Hr; rewrite bool_decide_eq_true_2 in Hr by done;
         by inversion Hr.
    1-2: unfold ClearAllCallBacks in Hr; rewrite bool_decide_eq_true_2 in Hr by done;
         by inversion Hr.
  - intros W rest tr' σ' Hst HW Hin Hex'.
    induction Hex' as [|tr' σ1 l σ2 Hex' IH Hstep]; [done|].
    apply (stuck_in_removal σ1 l σ2 t W rest); [|done..].
    apply (exec_counter_ok initial (tr ++ tr')); [|apply initial_counter_ok].
    by eapply exec_app.
Qed.

Lemma X6_removal_inside_callback_never_returns_witness :
  ∃ σ σ',
    exec initial [L_SetCallBack 0%nat "Step:6" 1%nat;
                  L_EnableProcessing 0%nat;
                  L_Process_enter 1%nat "Step:6" [] true;
                  L_Process 1%nat "Step:6" (Calling 1%nat) false;
                  L_ClearAllCallBacks 1%nat Blocked] σ ∧
    exec σ [L_ClearAllCallBacks 1%nat Blocked;
            L_DisableProcessing 0%nat;
            L_ClearAllCallBacks 1%nat Blocked] σ' ∧
    stack_of 1%nat (threads σ')
      = [InClearAllCallBacks_wait; InProcess_callback "Step:6" 1%nat []].
Proof.
  assert (∃ σ,
    exec initial [L_SetCallBack 0%nat "Step:6" 1%nat;
                  L_EnableProcessing 0%nat;
                  L_Process_enter 1%nat "Step:6" [] true;
                  L_Process 1%nat "Step:6" (Calling 1%nat) false;
                  L_ClearAllCallBacks 1%nat Blocked] σ ∧
    stack_of 1%nat (threads σ)
      = [InClearAllCallBacks_wait; InProcess_callback "Step:6" 1%nat []] ∧
    ∃ σ', exec σ [L_ClearAllCallBacks 1%nat Blocked;
                  L_DisableProcessing 0%nat;
                  L_ClearAllCallBacks 1%nat Blocked] σ')
    as (σ & Hex & Hst & σ' & Hex').
  { eexists. split; [unfold initial; run_trace|]. split; [by_computing|].
    eexists. run_trace. }
  exists σ, σ'. split; [exact Hex|]. split; [exact Hex'|].
  destruct (X6_removal_inside_callback_never_returns _ σ 1%nat Hex) as [_ Hstuck].
  eapply (Hstuck _ _ _ σ' Hst); [reflexivity|simpl; lia|exact Hex'].
Defined.

(** ** Waking up *)

(** X15: no clearing goes unannounced.  A piece of [Process] changes the
    cleared-points set only by adding the point it was called for, and it
    does so exactly when it also executes [cv_.notify_all()]; and when it
    does, it returns. *)
Theorem X15_every_clearing_is_broadcast σ t point o n σ' :
  step σ (L_Process t point o n) σ' →
  cleared_points_ (impl σ')
    = (if n then {[point]} ∪ cleared_points_ (impl σ) else cleared_points_ (impl σ)) ∧
  (n = true → o = Returned).
Proof.
  intros Hstep. inversion Hstep as
    [ | | | | | | | | | | | ? ? ? ? ? ? ? ? ? Hst Hr | ? ? ? ? ? ? ? ? ? Hst Hr
    | ? ? ? ? ? ? ? ? ? ? Hst Hr ]; subst; simpl in *.
  - apply result_parts in Hr as (-> & -> & ->). split; [apply Process_locked_cleared|].
    unfold Process_locked. destruct (DisabledByMarker _ _ _); [done|].
    rewrite Process_loop_outcome. destruct (all_cleared _ _); [|done].
    unfold Process_fire. by destruct (callbacks_ _ !! point).
  - apply result_parts in Hr as (-> & -> & ->). split; [apply Process_wake_cleared|].
    unfold Process_wake. destruct (DisabledByMarker _ _ _); [done|].
    rewrite Process_loop_outcome. destruct (all_cleared _ _); [|done].
    unfold Process_fire. by destruct (callbacks_ _ !! point).
  - by inversion Hr.
Qed.

Lemma X15_every_clearing_is_broadcast_witness :
  ∃ σ',
    step (mkSystem (EnableProcessing Impl_new) {[1%nat := [InProcess_lock "Step:1" []]]})
         (L_Process 1%nat "Step:1" Returned true) σ' ∧
    cleared_points_ (impl σ') = {["Step:1"]} ∪ ∅.
Proof.
  assert (∃ σ',
    step (mkSystem (EnableProcessing Impl_new) {[1%nat := [InProcess_lock "Step:1" []]]})
         (L_Process 1%nat "Step:1" Returned true) σ') as [σ' Hstep].
  { eexists. eapply step_Process_locked; by_computing. }
  exists σ'. split; [exact Hstep|].
  apply (X15_every_clearing_is_broadcast _ 1%nat "Step:1" Returned true σ' Hstep).
Defined.

(** X16: a parked thread gets through once nothing holds it back.  If a
    thread is parked in [Process] at a point all of whose predecessors are in
    the cleared-points set, and no record of another thread suppresses it,
    then waking up takes it past the wait: it can take a step, and every
    step it takes in that call either calls the registered callback or, there
    being none, clears the point and returns. *)
Theorem X16_woken_thread_gets_through s T t point args rest :
  stack_of t T = InProcess_wait point args :: rest →
  (∀ pred, pred ∈ at_or_empty point (predecessors_ s) → pred ∈ cleared_points_ s) →
  (∀ v, marked_thread_id_ s !! point = Some v → v = t) →
  (∃ l σ', step (mkSystem s T) l σ' ∧ ∃ o n, l = L_Process t point o n) ∧
  (∀ o n σ', step (mkSystem s T) (L_Process t point o n) σ' →
     (∃ cb, o = Calling cb ∧ callbacks_ s !! point = Some cb ∧
            stack_of t (threads σ') = InProcess_callback point cb args :: rest) ∨
     (o = Returned ∧ n = true ∧ callbacks_ s !! point = None ∧
      point ∈ cleared_points_ (impl σ') ∧ stack_of t (threads σ') = rest)).
Proof.
  intros Hst Hpreds Hown.
  assert (Hwake : Process_wake point t s
    = Process_fire point (set_predecessors (touch point (predecessors_ s)) s)).
  { unfold Process_wake.
    assert (DisabledByMarker point t s = false) as ->.
    { unfold DisabledByMarker. destruct (marked_thread_id_ s !! point) as [v|] eqn:Hv; [|done].
      rewrite (Hown v eq_refl). by rewrite bool_decide_eq_false_2 by (intros ?; done). }
    rewrite Process_loop_outcome.
    by rewrite (proj2 (all_cleared_true _ _) Hpreds). }
  split.
  - eexists _, _. split.
    + by eapply (step_Process_wake s T t point args rest (state (Process_wake point t s))
                   (outcome (Process_wake point t s)) (notify_all (Process_wake point t s)));
        [|by destruct (Process_wake point t s)].
    + by eexists _, _.
  - intros o n σ' Hstep. inversion Hstep as
      [ | | | | | | | | | | | ? ? ? ? ? ? ? ? ? Hst' Hr | ? ? ? ? ? ? ? ? ? Hst' Hr
      | ? ? ? ? ? ? ? ? ? ? Hst' Hr ]; subst; simpl in *;
      rewrite Hst in Hst'; try discriminate Hst'.
    injection Hst' as <- <-. rewrite Hwake in Hr. unfold Process_fire in Hr. simpl in Hr.
    rewrite stack_of_insert, decide_True by done.
    destruct (callbacks_ s !! point) as [cb|]; inversion Hr; subst; simpl.
    + left. by exists cb.
    + right. split_and!; try done. apply elem_of_union. left. by apply elem_of_singleton.
Qed.

Lemma X16_woken_thread_gets_through_witness :
  let s := state (Process "Step:1" [] 1%nat
             (LoadDependencyAndMarkers [mkPair "Step:1" "Step:2"] []
                (EnableProcessing Impl_new))) in
  ∃ l σ',
    step (mkSystem s {[2%nat := [InProcess_wait "Step:2" []]]}) l σ' ∧
    ∃ o n, l = L_Process 2%nat "Step:2" o n.
Proof.
  intros s.
  apply (X16_woken_thread_gets_through s {[2%nat := [InProcess_wait "Step:2" []]]}
           2%nat "Step:2" [] []).
  - by_computing.
  - intros pred Hpred.
    replace (at_or_empty "Step:2" (predecessors_ s)) with ["Step:1"] in Hpred
      by by_computing.
    apply list_elem_of_singleton in Hpred as ->.
    apply (bool_decide_unpack _). by_computing.
  - intros v Hv. vm_compute in Hv. discriminate Hv.
Defined.
